(** * video-scene-editor: segment, silence and thumbnail bookkeeping

    A shallow embedding of the JavaScript sources

    - [index.js]              (detectScenes, splitByScenes, mergeScenes, autoEdit),
    - [silence_detector.js]   (detectSilence, removeSilence),
    - [thumbnail_generator.js] (findBestThumbnailFrame, evaluateFrameQuality).

    Conventions of the embedding.

    - A JavaScript number holding a time is an exact rational [Q]; NaN,
      infinities and rounding of IEEE doubles are outside the model.  An
      equation between computed numbers is therefore stated with [==].
    - [null] is [None]; an arithmetic use of [null] goes through [toNumber],
      which is JavaScript's ToNumber (null becomes 0).
    - The file system is the finite set of the paths that exist.
    - ffmpeg/ffprobe are an [Engine]: a record of functions that say, for a
      command and a file system, whether the process exits with 0 and what it
      leaves behind.  A thrown exception keeps the file system reached so far.
*)

From Stdlib Require Import QArith Qminmax Qabs Qround Lqa.
From stdpp Require Import gmap strings list pretty.

Local Open Scope Q_scope.

(* set_solver clears hypotheses by name and warns when one is absent *)
#[local] Set Warnings "-clear-no-such-hyp".

(** * Part I: the model *)

(** ** JavaScript numbers *)

Module JS.

(** [a >= b], [a > b] and [a < b] on numbers. *)
Definition ge (a b : Q) : bool := Qle_bool b a.
Definition gt (a b : Q) : bool := negb (Qle_bool a b).
Definition lt (a b : Q) : bool := negb (Qle_bool b a).

(** ToNumber on a number-or-null. *)
Definition toNumber (v : option Q) : Q :=
  match v with
  | Some q => q
  | None => 0
  end.

(** Truthiness of a number-or-null ([0] and [null] are falsy). *)
Definition truthy (v : option Q) : bool :=
  match v with
  | Some q => negb (Qeq_bool q 0)
  | None => false
  end.

End JS.


(** ** Segments

    The object literal [{ start, end, duration }] of [mergeScenes] and of
    [removeSilence]. *)

Record Segment := mkSegment {
  seg_start : Q;
  seg_end : Q;
  seg_duration : Q
}.

(** [[0, ...timestamps, duration]] *)
Definition allTimestamps (timestamps : list Q) (duration : Q) : list Q :=
  0 :: timestamps ++ [duration].

(** The body of the loop [for (i = 0; i < allTimestamps.length - 1; i++)]
    shared by [splitByScenes] and [mergeScenes]: iteration [i] reads
    [start = allTimestamps[i]], [end = allTimestamps[i + 1]] and
    [segDuration = end - start]. *)
Fixpoint sceneSegments (bounds : list Q) : list Segment :=
  match bounds with
  | start :: (end_ :: _) as rest =>
      mkSegment start end_ (end_ - start) :: sceneSegments rest
  | _ => []
  end.

(** The filtering loop of [mergeScenes] (index.js, lines 136-146). *)
Fixpoint validSegments (minDuration : Q) (bounds : list Q) : list Segment :=
  match bounds with
  | start :: (end_ :: _) as rest =>
      let segDuration := end_ - start in
      if JS.ge segDuration minDuration
      then mkSegment start end_ segDuration :: validSegments minDuration rest
      else validSegments minDuration rest
  | _ => []
  end.

(** Sum of the [duration] fields. *)
Definition totalDuration (segs : list Segment) : Q :=
  foldr (fun s acc => seg_duration s + acc) 0 segs.

(** [chained a segs b]: the segments start at [a], each one starts where the
    previous one ends, and the last one ends at [b]. *)
Fixpoint chained (a : Q) (segs : list Segment) (b : Q) : Prop :=
  match segs with
  | [] => a = b
  | s :: rest => seg_start s = a /\ chained (seg_end s) rest b
  end.

(** Strictly increasing timestamps between [lo] and [hi], both excluded. *)
Fixpoint increasingWithin (lo : Q) (ts : list Q) (hi : Q) : Prop :=
  match ts with
  | [] => lo < hi
  | t :: rest => lo < t /\ increasingWithin t rest hi
  end.

(** ** Silence intervals and the silence-complement walk
    (silence_detector.js) *)

(** [{ start, end, duration, type: "silence" }]; [end] and [duration] are
    [null] when the stream ends while still silent. *)
Record SilenceInterval := mkSilence {
  sil_start : Q;
  sil_end : option Q;
  sil_duration : option Q
}.

(** The pairing loop of [detectSilence] (lines 47-59):
    [end = silenceEnds[i] || null], [duration = end ? end - start : null]. *)
Definition pairSilences (silenceStarts silenceEnds : list Q)
  : list SilenceInterval :=
  imap (fun i start =>
          let end_ :=
            if JS.truthy (silenceEnds !! i) then silenceEnds !! i else None in
          let duration :=
            if JS.truthy end_ then Some (JS.toNumber end_ - start) else None in
          mkSilence start end_ duration)
       silenceStarts.

(** The loop [for (const silence of silenceSegments)] of [removeSilence]
    (lines 103-113), from a given [currentTime]; it returns the intervals
    pushed and the final [currentTime].  [Math.min] and [-] apply ToNumber to
    [silence.end]. *)
Fixpoint silenceLoop (silenceSegments : list SilenceInterval)
    (padding currentTime : Q) : list Segment * Q :=
  match silenceSegments with
  | [] => ([], currentTime)
  | silence :: rest =>
      let pushed :=
        if JS.gt (sil_start silence) currentTime
        then [ mkSegment currentTime
                 (Qmin (sil_start silence + padding)
                       (JS.toNumber (sil_end silence)))
                 (sil_start silence - currentTime + padding) ]
        else [] in
      let currentTime' :=
        Qmax (JS.toNumber (sil_end silence) - padding) (sil_start silence) in
      let '(more, final) := silenceLoop rest padding currentTime' in
      (pushed ++ more, final)
  end.

(** The last push (lines 116-122). *)
Definition lastSegment (currentTime totalDuration : Q) : list Segment :=
  if JS.lt currentTime totalDuration
  then [ mkSegment currentTime totalDuration (totalDuration - currentTime) ]
  else [].

(** [audioSegments] as [removeSilence] has it after line 122. *)
Definition audioSegments (silenceSegments : list SilenceInterval)
    (totalDuration padding : Q) : list Segment :=
  let '(pushed, currentTime) := silenceLoop silenceSegments padding 0 in
  pushed ++ lastSegment currentTime totalDuration.

(** Two segments with equal numbers, and two lists of such segments; used
    to compare the result of a run with literals. *)
Definition sameSegment (a b : Segment) : Prop :=
  seg_start a == seg_start b /\ seg_end a == seg_end b
  /\ seg_duration a == seg_duration b.

Definition sameSegments : list Segment -> list Segment -> Prop :=
  Forall2 sameSegment.

(** Closed silence intervals ([end] not null, [start <= end]) in time order,
    none starting before [lo], each ending before the next one starts. *)
Fixpoint silencesOrdered (lo : Q) (silences : list SilenceInterval) : Prop :=
  match silences with
  | [] => True
  | s :: rest =>
      exists e, sil_end s = Some e
                /\ lo <= sil_start s /\ sil_start s <= e
                /\ silencesOrdered e rest
  end.

(** Every silence is closed and lasts at least [d]. *)
Definition silencesLast (d : Q) (silences : list SilenceInterval) : Prop :=
  Forall (fun s => exists e, sil_end s = Some e /\ sil_start s + d <= e)
         silences.

(** Each interval starts at or after the end of the one emitted before it. *)
Definition timeOrdered (ks : list Segment) : Prop :=
  forall (i : nat) a b,
    ks !! i = Some a -> ks !! S i = Some b -> seg_end a <= seg_start b.

(** No two intervals overlap: an earlier one ends before a later one
    starts. *)
Definition nonOverlapping (ks : list Segment) : Prop :=
  forall (i j : nat) a b,
    (i < j)%nat -> ks !! i = Some a -> ks !! j = Some b ->
    seg_end a <= seg_start b.

(** Intervals that are well formed, in time order, and start at or after
    [c]. *)
Fixpoint orderedFrom (c : Q) (ks : list Segment) : Prop :=
  match ks with
  | [] => True
  | k :: rest =>
      c <= seg_start k /\ seg_start k <= seg_end k
      /\ orderedFrom (seg_end k) rest
  end.

(** ** Thumbnail frame selection (thumbnail_generator.js) *)

(** [{ timestamp, score }] *)
Record Frame := mkFrame {
  timestamp : Q;
  score : Q
}.

(** [Array.prototype.sort(compareFn)] as ECMAScript 2019 specifies it for a
    consistent comparator: a stable sort in which [a] comes before [b] when
    [compareFn(a, b) < 0] and elements that compare equal keep their order.
    Written as the insertion sort that places each element in front of the
    already sorted rest of the array, after the elements that must precede
    it. *)
Fixpoint insertSorted {A : Type} (compareFn : A -> A -> Q) (x : A)
    (sorted : list A) : list A :=
  match sorted with
  | [] => [x]
  | y :: rest =>
      if JS.gt (compareFn x y) 0
      then y :: insertSorted compareFn x rest
      else x :: y :: rest
  end.

Definition Array_sort {A : Type} (compareFn : A -> A -> Q) (array : list A)
  : list A :=
  foldr (insertSorted compareFn) [] array.

(** The index [i] of the sampling loop as a number. *)
Definition ofIndex (i : nat) : Q := inject_Z (Z.of_nat i).

(** The sampling loop [for (let i = 0; i < candidates; i++)] (lines 72-76);
    [qualityFn] stands for [evaluateFrameQuality(videoPath, _)]. *)
Definition sampleFrames (qualityFn : Q -> Q) (startTime interval : Q)
    (candidates : nat) : list Frame :=
  List.map (fun i =>
              let timestamp := startTime + ofIndex i * interval in
              mkFrame timestamp (qualityFn timestamp))
           (seq 0 candidates).

(** [findBestThumbnailFrame] (lines 56-86) for a video of the given
    [duration], with the scoring of a candidate left open.  [None] is the
    TypeError of [bestFrame.timestamp] when [frames[0]] is undefined. *)
Definition findBestThumbnailFrameWith (qualityFn : Q -> Q) (duration : Q)
    (candidates : nat) : option Q :=
  let startTime := duration * 0.1 in
  let endTime := duration * 0.9 in
  let interval := (endTime - startTime) / ofIndex candidates in
  let frames := sampleFrames qualityFn startTime interval candidates in
  let sorted := Array_sort (fun a b => score b - score a) frames in
  match sorted with
  | bestFrame :: _ => Some (timestamp bestFrame)
  | [] => None
  end.

(** [evaluateFrameQuality] (lines 92-122).  [infoDuration] is the duration
    that its own call of [getVideoInfo] reports, [None] when that call
    throws (the [catch] then leaves the base score).  Meaningful for a
    positive reported duration: division by zero is outside the model. *)
Definition evaluateFrameQuality (infoDuration : option Q) (timestamp : Q) : Q :=
  let score := 50 in
  let score :=
    match infoDuration with
    | Some duration =>
        let normalizedTime := timestamp / duration in
        let timeBonus := 20 - Qabs (normalizedTime - 0.5) * 40 in
        let score := score + timeBonus in
        if JS.lt timestamp (duration * 0.1) || JS.gt timestamp (duration * 0.9)
        then score - 20
        else score
    | None => score
    end in
  Qmax 0 (Qmin 100 score).

(** [findBestThumbnailFrame]: [duration] is what the first [getVideoInfo]
    reports and [probe t] what the one inside the scoring of candidate [t]
    reports. *)
Definition findBestThumbnailFrame (duration : Q) (probe : Q -> option Q)
    (candidates : nat) : option Q :=
  findBestThumbnailFrameWith (fun t => evaluateFrameQuality (probe t) t)
                             duration candidates.

(** The [i]-th candidate of the specification:
    [0.1*D + i * ((0.9*D - 0.1*D) / candidateCount)]. *)
Definition candidate (D : Q) (candidateCount i : nat) : Q :=
  D * 0.1 + ofIndex i * ((D * 0.9 - D * 0.1) / ofIndex candidateCount).

(** ** The orchestrator (index.js): file system, engine, exceptions *)

(** The commands built as strings for [exec]. *)
Inductive command :=
| SceneDetect (videoPath : string) (threshold : Q)
    (* ffmpeg -i videoPath -filter:v select='gt(scene,threshold)',showinfo *)
| ProbeDuration (videoPath : string)
    (* ffprobe -show_entries format=duration videoPath *)
| Trim (start : Q) (videoPath : string) (t : Q) (outputFile : string)
    (* ffmpeg -y -ss start -i videoPath -t t -c copy outputFile *)
| Concat (listFile outputFile : string).
    (* ffmpeg -y -f concat -safe 0 -i listFile -c copy outputFile *)

(** The exceptions, by the message of the [Error] thrown. *)
Inductive error :=
| VideoNotFound (videoPath : string)   (* "Video file not found: ..." *)
| CommandFailed (cmd : command)        (* "Command failed: ..." *)
| NoValidSegments                      (* "No valid segments found after filtering" *)
| NoEntry (file : string).             (* ENOENT of fs.unlinkSync *)

(** What ffmpeg and ffprobe do.  [scenePts] is the list of [pts_time]
    values in the output of a scene-detection run and [probedDuration] the
    number printed by ffprobe, [None] when the process exits with an error;
    [ffmpeg] tells, for a trim or a concatenation, whether it exits with 0
    and which files exist afterwards. *)
Record Engine := {
  scenePts : string -> Q -> gset string -> option (list Q);
  probedDuration : string -> gset string -> option Q;
  ffmpeg : command -> gset string -> bool * gset string
}.

(** The functions of Node's [path] module that [splitByScenes] calls. *)
Record NodePath := {
  path_parse_name : string -> string;      (* path.parse(p).name *)
  path_join : string -> string -> string   (* path.join(a, b) *)
}.

(** A computation returns or throws, and leaves a file system. *)
Inductive outcome (A : Type) :=
| Returned (a : A)
| Thrown (e : error).
Arguments Returned {A} a.
Arguments Thrown {A} e.

Definition Run (A : Type) : Type := gset string -> outcome A * gset string.

#[global] Instance Run_ret : MRet Run := fun A a fs => (Returned a, fs).

#[global] Instance Run_bind : MBind Run := fun A B k m fs =>
  match m fs with
  | (Returned a, fs') => k a fs'
  | (Thrown e, fs') => (Thrown e, fs')
  end.

Definition throw {A : Type} (e : error) : Run A := fun fs => (Thrown e, fs).

(** [fs.existsSync], [fs.mkdirSync], [fs.writeFileSync], [fs.unlinkSync]. *)
Definition existsSync (p : string) : Run bool :=
  fun fs => (Returned (bool_decide (p ∈ fs)), fs).

Definition mkdirSync (p : string) : Run unit :=
  fun fs => (Returned tt, {[p]} ∪ fs).

Definition writeFileSync (p : string) : Run unit :=
  fun fs => (Returned tt, {[p]} ∪ fs).

Definition unlinkSync (p : string) : Run unit :=
  fun fs => if bool_decide (p ∈ fs)
            then (Returned tt, fs ∖ {[p]})
            else (Thrown (NoEntry p), fs).

(** [String(n).padStart(targetLength, "0")] *)
Fixpoint zeros (n : nat) : string :=
  match n with
  | O => ""
  | S n => String (Ascii.ascii_of_nat 48) (zeros n)
  end.

Definition padStart0 (targetLength : nat) (s : string) : string :=
  zeros (targetLength - String.length s) +:+ s.

(** [`temp_scene_${i}.mp4`] *)
Definition tempFileName (i : nat) : string :=
  "temp_scene_" +:+ pretty i +:+ ".mp4".

Section Orchestrator.

Context (path : NodePath) (E : Engine).

(** [exec(cmd)] for a trim or a concatenation. *)
Definition exec (cmd : command) : Run unit :=
  fun fs =>
    let '(ok, fs') := ffmpeg E cmd fs in
    (if ok then Returned tt else Thrown (CommandFailed cmd), fs').

(** [detectScenes] (lines 56-73). *)
Definition detectScenes (videoPath : string) (threshold : Q)
  : Run (list Q) :=
  found ← existsSync videoPath;
  if negb found then throw (VideoNotFound videoPath)
  else fun fs =>
    match scenePts E videoPath threshold fs with
    | Some timestamps => (Returned timestamps, fs)
    | None => (Thrown (CommandFailed (SceneDetect videoPath threshold)), fs)
    end.

(** [getDuration] (lines 76-80). *)
Definition getDuration (videoPath : string) : Run Q :=
  fun fs =>
    match probedDuration E videoPath fs with
    | Some duration => (Returned duration, fs)
    | None => (Thrown (CommandFailed (ProbeDuration videoPath)), fs)
    end.

(** The loop of [splitByScenes] (lines 109-121) from index [i]. *)
Fixpoint splitLoop (videoPath outputDir baseName : string) (i : nat)
    (bounds : list Q) : Run (list string) :=
  match bounds with
  | start :: (end_ :: _) as rest =>
      let segDuration := end_ - start in
      let outputFile :=
        path_join path outputDir
          (baseName +:+ "_scene_" +:+ padStart0 3 (pretty (i + 1)%nat)
           +:+ ".mp4") in
      _ ← exec (Trim start videoPath segDuration outputFile);
      outputs ← splitLoop videoPath outputDir baseName (S i) rest;
      mret (outputFile :: outputs)
  | _ => mret []
  end.

(** [splitByScenes] (lines 99-124). *)
Definition splitByScenes (videoPath : string) (timestamps : list Q)
    (outputDir : string) : Run (list string) :=
  found ← existsSync outputDir;
  _ ← (if negb found then mkdirSync outputDir else mret tt);
  duration ← getDuration videoPath;
  let allTimestamps := allTimestamps timestamps duration in
  let baseName := path_parse_name path videoPath in
  splitLoop videoPath outputDir baseName 0 allTimestamps.

(** [validSegments.forEach((seg, i) => ...)] (lines 154-159), from index
    [i]: the temporary files, in order. *)
Fixpoint extractLoop (videoPath : string) (i : nat) (segs : list Segment)
  : Run (list string) :=
  match segs with
  | [] => mret ([] : list string)
  | seg :: rest =>
      let tempFile := tempFileName i in
      _ ← exec (Trim (seg_start seg) videoPath (seg_duration seg) tempFile);
      tempFiles ← extractLoop videoPath (S i) rest;
      mret (tempFile :: tempFiles)
  end.

(** [tempFiles.forEach((f) => { if (fs.existsSync(f)) fs.unlinkSync(f) })] *)
Fixpoint unlinkAll (files : list string) : Run unit :=
  match files with
  | [] => mret tt
  | f :: rest =>
      found ← existsSync f;
      _ ← (if found : bool then unlinkSync f else mret tt);
      unlinkAll rest
  end.

(** [mergeScenes] (lines 127-176).  The text written to the manifest is
    not modelled, only that the file exists. *)
Definition mergeScenes (videoPath : string) (timestamps : list Q)
    (minDuration : Q) (outputFile : string) : Run string :=
  duration ← getDuration videoPath;
  let allTimestamps := allTimestamps timestamps duration in
  let validSegments := validSegments minDuration allTimestamps in
  if (length validSegments =? 0)%nat then throw NoValidSegments
  else
    tempFiles ← extractLoop videoPath 0 validSegments;
    _ ← writeFileSync "merge_list.txt";
    _ ← exec (Concat "merge_list.txt" outputFile);
    _ ← unlinkAll tempFiles;
    found ← existsSync "merge_list.txt";
    _ ← (if found : bool then unlinkSync "merge_list.txt" else mret tt);
    mret outputFile.

(** The object returned by [autoEdit]. *)
Record AutoEditResult := {
  originalDuration : Q;
  scenesDetected : nat;
  clipsCreated : nat;
  clipsPath : string;
  mergedFile : string;
  sceneTimestamps : list Q
}.

(** [autoEdit] (lines 179-214), without its logging. *)
Definition autoEdit (videoPath : string) (minDuration threshold : Q)
  : Run AutoEditResult :=
  duration ← getDuration videoPath;
  timestamps ← detectScenes videoPath threshold;
  timestamps ← (if (length timestamps =? 0)%nat
                then detectScenes videoPath 0.15
                else mret timestamps);
  let outputDir := "auto_scenes" in
  clips ← splitByScenes videoPath timestamps outputDir;
  let mergedFile := "auto_merged.mp4" in
  finalFile ← mergeScenes videoPath timestamps minDuration mergedFile;
  mret {| originalDuration := duration;
          scenesDetected := length timestamps;
          clipsCreated := length clips;
          clipsPath := outputDir;
          mergedFile := finalFile;
          sceneTimestamps := timestamps |}.

End Orchestrator.

(** A deterministic engine for examples: the video lasts [duration], the
    scene detector reports [scenes] at every threshold, and a trim or a
    concatenation creates its output file unless [fails] says that the
    process exits with an error. *)
Definition outputOf (cmd : command) : gset string :=
  match cmd with
  | Trim _ _ _ outputFile => {[outputFile]}
  | Concat _ outputFile => {[outputFile]}
  | _ => ∅
  end.

Definition scriptedEngine (duration : Q) (scenes : list Q)
    (fails : command -> bool) : Engine :=
  {| scenePts := fun _ _ _ => Some scenes;
     probedDuration := fun _ _ => Some duration;
     ffmpeg := fun cmd fs =>
       if fails cmd then (false, fs) else (true, outputOf cmd ∪ fs) |}.

(** A stand-in for Node's [path] on relative POSIX names without a file
    extension. *)
Definition posixPath : NodePath :=
  {| path_parse_name := fun p => p;
     path_join := fun a b => a +:+ "/" +:+ b |}.

(** Failure scripts: the trim that starts at 10 s fails; the concatenation
    fails; nothing fails. *)
Definition secondTrimFails (cmd : command) : bool :=
  match cmd with
  | Trim start _ _ _ => Qeq_bool start 10
  | _ => false
  end.

Definition concatFails (cmd : command) : bool :=
  match cmd with
  | Concat _ _ => true
  | _ => false
  end.

Definition nothingFails (cmd : command) : bool := false.

(** [neverThrows e m]: whatever the file system, [m] does not throw [e]. *)
Definition neverThrows {A : Type} (e : error) (m : Run A) : Prop :=
  forall fs, fst (m fs) <> Thrown e.

(** One silence of 0.15 s, shorter than twice the padding 0.1. *)
Definition shortSilence : list SilenceInterval :=
  [ mkSilence 10 (Some 10.15) (Some 0.15) ].

(** The scenario of the specification: two closed silences. *)
Definition twoSilences : list SilenceInterval :=
  [ mkSilence 0 (Some 2) (Some 2); mkSilence 10 (Some 10.4) (Some 0.4) ].

(** A stream that ends while silent: one start marker, no end marker. *)
Definition openSilence : list SilenceInterval := pairSilences [5] [].

(** The same interval closed at the total duration 10. *)
Definition closedSilence : list SilenceInterval :=
  [ mkSilence 5 (Some 10) (Some 5) ].

(** One silence of 0.05 s, shorter than the padding 0.1. *)
Definition briefSilence : list SilenceInterval :=
  [ mkSilence 1 (Some 1.05) (Some 0.05) ].

(** ** Further definitions for the silence walk *)

(** Length of a silence, [end - start] as JavaScript computes it. *)
Definition silenceLength (s : SilenceInterval) : Q :=
  JS.toNumber (sil_end s) - sil_start s.

(** Sum of the lengths of the silences. *)
Definition silenceTotal (silences : list SilenceInterval) : Q :=
  foldr (fun s acc => silenceLength s + acc) 0 silences.

(** No silence ends after [D]. *)
Definition silencesEndBy (D : Q) (silences : list SilenceInterval) : Prop :=
  Forall (fun s => JS.toNumber (sil_end s) <= D) silences.

(** The video does not begin with a silence. *)
Definition startsWithSound (silences : list SilenceInterval) : Prop :=
  match silences with
  | [] => True
  | s :: _ => 0 < sil_start s
  end.

(** [end] and [duration] of an interval are null together, and otherwise
    [end] is not 0 and [duration] is [end - start]. *)
Definition consistentSilence (s : SilenceInterval) : Prop :=
  match sil_end s, sil_duration s with
  | Some e, Some d => ~ e == 0 /\ d = e - sil_start s
  | None, None => True
  | _, _ => False
  end.

(** Start and end markers that alternate in time from [lo] on: each
    silence starts at or after the end of the previous one and ends after
    it starts. *)
Fixpoint interleaved (lo : Q) (starts ends : list Q) : Prop :=
  match starts, ends with
  | [], [] => True
  | s :: starts', e :: ends' => lo <= s /\ s < e /\ interleaved e starts' ends'
  | _, _ => False
  end.

(** ** The rest of [removeSilence] (silence_detector.js, lines 87-166) *)

(** [`temp_audio_${i}.mp4`] *)
Definition tempAudioName (i : nat) : string :=
  "temp_audio_" +:+ pretty i +:+ ".mp4".

(** [fs.copyFileSync(src, dest)] *)
Definition copyFileSync (src dest : string) : Run unit :=
  fun fs => if bool_decide (src ∈ fs)
            then (Returned tt, {[dest]} ∪ fs)
            else (Thrown (NoEntry src), fs).

Section SilenceRemoval.

Context (E : Engine).

(** [audioSegments.forEach((seg, i) => ...)] (lines 129-138), from index
    [i].  The source pushes the name before it runs the trim; the list is
    only used once every trim has succeeded. *)
Fixpoint extractAudioLoop (videoPath : string) (i : nat)
    (segs : list Segment) : Run (list string) :=
  match segs with
  | [] => mret ([] : list string)
  | seg :: rest =>
      let tempFile := tempAudioName i in
      _ ← exec E (Trim (seg_start seg) videoPath (seg_duration seg) tempFile);
      tempFiles ← extractAudioLoop videoPath (S i) rest;
      mret (tempFile :: tempFiles)
  end.

(** [removeSilence] from line 87 on, for the [silenceSegments] that
    [detectSilence] has returned (a failing silencedetect run throws before
    and is not part of this function). *)
Definition removeSilenceWith (silenceSegments : list SilenceInterval)
    (videoPath outputFile : string) (padding : Q) : Run string :=
  if (length silenceSegments =? 0)%nat
  then
    _ ← copyFileSync videoPath outputFile;
    mret outputFile
  else
    totalDuration ← getDuration E videoPath;
    let audioSegments := audioSegments silenceSegments totalDuration padding in
    tempFiles ← extractAudioLoop videoPath 0 audioSegments;
    _ ← writeFileSync "audio_merge_list.txt";
    _ ← exec E (Concat "audio_merge_list.txt" outputFile);
    _ ← unlinkAll tempFiles;
    found ← existsSync "audio_merge_list.txt";
    _ ← (if found : bool then unlinkSync "audio_merge_list.txt" else mret tt);
    mret outputFile.

End SilenceRemoval.

(** ** Storyboards (thumbnail_generator.js) *)

(** The sample times of [generateStoryboard] (lines 168-172), of
    [generateSimpleStoryboard] (line 232) and of
    [generateTimestampedStoryboard] (line 335):
    [duration * ((i + 0.5) / totalFrames)] for [i] in [0, totalFrames). *)
Definition storyboardTimestamps (duration : Q) (totalFrames : nat) : list Q :=
  List.map (fun i => duration * ((ofIndex i + 0.5) / ofIndex totalFrames))
           (seq 0 totalFrames).

(** Slice [i] of a video cut into [n] equal parts. *)
Definition sliceStart (D : Q) (n i : nat) : Q := D * ofIndex i / ofIndex n.
Definition sliceEnd (D : Q) (n i : nat) : Q := D * ofIndex (S i) / ofIndex n.

(** [Math.trunc] and the remainder [a % b] of JavaScript, which has the
    sign of [a]. *)
Definition js_trunc (x : Q) : Z :=
  if Qle_bool 0 x then Qfloor x else Qceiling x.

Definition js_rem (a b : Q) : Q := a - b * inject_Z (js_trunc (a / b)).

(** The label under a frame of [generateTimestampedStoryboard]
    (lines 336-338): [minutes = Math.floor(timestamp / 60)],
    [seconds = Math.floor(timestamp % 60)],
    [`${minutes}:${String(seconds).padStart(2, "0")}`]. *)
Definition labelMinutes (timestamp : Q) : Z := Qfloor (timestamp / 60).

Definition labelSeconds (timestamp : Q) : Z := Qfloor (js_rem timestamp 60).

Definition timeStr (timestamp : Q) : string :=
  pretty (labelMinutes timestamp) +:+ ":"
  +:+ padStart0 2 (pretty (labelSeconds timestamp)).

(** The grid of [generateTimestampedStoryboard] (lines 355-356):
    [cols = Math.ceil(Math.sqrt(count))], [rows = Math.ceil(count / cols)].
    The ceiling of the square root is computed on integers, which agrees
    with the rounded [Math.sqrt] for every count below 2^52. *)
Definition ceilSqrt (count : nat) : nat :=
  let r := Nat.sqrt count in
  if (r * r =? count)%nat then r else S r.

Definition gridCols (count : nat) : nat := ceilSqrt count.

Definition gridRows (count : nat) : Z :=
  Qceiling (ofIndex count / ofIndex (gridCols count)).

(** ** Locating ffmpeg, and the output of ffprobe (index.js) *)

(** The module variables [FFMPEG_PATH] and [FFPROBE_PATH]. *)
Record ToolPaths := mkToolPaths {
  FFMPEG_PATH : string;
  FFPROBE_PATH : string
}.

Definition possiblePaths : list string :=
  [ "D:\WorkSpace\ffmpeg\bin\ffmpeg.exe";
    "C:\ffmpeg\bin\ffmpeg.exe";
    "C:\Program Files\ffmpeg\bin\ffmpeg.exe" ].

Definition possibleProbes : list string :=
  [ "D:\WorkSpace\ffmpeg\bin\ffprobe.exe";
    "C:\ffmpeg\bin\ffprobe.exe";
    "C:\Program Files\ffmpeg\bin\ffprobe.exe" ].

(** The loop of [findFFmpeg] (lines 29-35) over the pairs
    [(possiblePaths[i], possibleProbes[i])]. *)
Fixpoint firstInstalled (pairs : list (string * string)) (fs : gset string)
  : option ToolPaths :=
  match pairs with
  | [] => None
  | (ffmpegPath, ffprobePath) :: rest =>
      if bool_decide (ffmpegPath ∈ fs)
      then Some (mkToolPaths ffmpegPath ffprobePath)
      else firstInstalled rest fs
  end.

(** [findFFmpeg] (lines 16-44): the value returned and the module
    variables afterwards.  [onPath] tells whether [ffmpeg -version] runs. *)
Definition findFFmpeg (onPath : bool) (fs : gset string) (paths : ToolPaths)
  : bool * ToolPaths :=
  match firstInstalled (List.combine possiblePaths possibleProbes) fs with
  | Some found => (true, found)
  | None => (onPath, paths)
  end.

(** The configuration with which the module starts. *)
Definition defaultPaths : ToolPaths := mkToolPaths "ffmpeg" "ffprobe".

(** [s.split(sep)] for a separator of one character. *)
Fixpoint splitOn (sep : Ascii.ascii) (s : string) : list string :=
  match s with
  | EmptyString => [EmptyString]
  | String c rest =>
      if Ascii.eqb c sep
      then EmptyString :: splitOn sep rest
      else match splitOn sep rest with
           | piece :: pieces => String c piece :: pieces
           | [] => [String c EmptyString]
           end
  end.

(** [s.includes(c)] for one character. *)
Fixpoint includesChar (c : Ascii.ascii) (s : string) : bool :=
  match s with
  | EmptyString => false
  | String c' rest => Ascii.eqb c' c || includesChar c rest
  end.

Definition equalsSign : Ascii.ascii := Ascii.ascii_of_nat 61.
Definition lineFeed : Ascii.ascii := Ascii.ascii_of_nat 10.

(** One step of the [forEach] of [getVideoInfo] (lines 88-93):
    [if (line.includes("=")) { const [key, value] = line.split("=");
    info[key] = value; }].  The map holds the own properties of [info];
    assigning a string to ["__proto__"] creates none. *)
Definition recordLine (info : gmap string string) (line : string)
  : gmap string string :=
  if includesChar equalsSign line
  then match splitOn equalsSign line with
       | key :: value :: _ =>
           if decide (key = "__proto__") then info else <[key := value]> info
       | _ => info
       end
  else info.

(** The parsing of [getVideoInfo] (index.js, lines 87-95) applied to the
    text that ffprobe printed. *)
Definition parseVideoInfo (output : string) : gmap string string :=
  foldl recordLine ∅ (splitOn lineFeed output).

(** A text without "=" and without line feed. *)
Definition plainText (s : string) : bool :=
  negb (includesChar equalsSign s) && negb (includesChar lineFeed s).

(** What ffprobe prints for a list of entries: one [key=value] line each,
    every line ended by a line feed. *)
Fixpoint printEntries (entries : list (string * string)) : string :=
  match entries with
  | [] => EmptyString
  | (key, value) :: rest =>
      key +:+ String equalsSign value +:+ String lineFeed (printEntries rest)
  end.

(** Every entry is plain text and no key is ["__proto__"]. *)
Definition plainEntries (entries : list (string * string)) : Prop :=
  Forall (fun kv => plainText kv.1 = true /\ plainText kv.2 = true
                    /\ kv.1 <> "__proto__") entries.


(** The name of clip [i] (counted from 0) in [splitByScenes]
    (lines 113-116). *)
Definition clipName (path : NodePath) (outputDir baseName : string)
    (i : nat) : string :=
  path_join path outputDir
    (baseName +:+ "_scene_" +:+ padStart0 3 (pretty (i + 1)%nat) +:+ ".mp4").

(** * Part II: facts about the model *)

(** ** Comparisons of numbers *)

Lemma JS_ge_true a b : JS.ge a b = true <-> b <= a.
Proof. unfold JS.ge. apply Qle_bool_iff. Qed.

Lemma JS_ge_false a b : JS.ge a b = false <-> a < b.
Proof.
  unfold JS.ge. split; intros H.
  - apply Qnot_le_lt. intros Hle. apply Qle_bool_iff in Hle. congruence.
  - destruct (Qle_bool b a) eqn:E; [|reflexivity].
    apply Qle_bool_iff in E. lra.
Qed.

Lemma JS_gt_true a b : JS.gt a b = true <-> b < a.
Proof.
  unfold JS.gt. rewrite negb_true_iff. split; intros H.
  - apply Qnot_le_lt. intros Hle. apply Qle_bool_iff in Hle. congruence.
  - destruct (Qle_bool a b) eqn:E; [|reflexivity].
    apply Qle_bool_iff in E. lra.
Qed.

Lemma JS_gt_false a b : JS.gt a b = false <-> a <= b.
Proof. unfold JS.gt. rewrite negb_false_iff. apply Qle_bool_iff. Qed.

Lemma JS_lt_true a b : JS.lt a b = true <-> a < b.
Proof. unfold JS.lt. apply (JS_gt_true b a). Qed.

Lemma JS_lt_false a b : JS.lt a b = false <-> b <= a.
Proof. unfold JS.lt. apply (JS_gt_false b a). Qed.


(** Closes an order or equality goal between rational literals. *)
Ltac closed_Q :=
  cbn [sil_start sil_end seg_start seg_end seg_duration];
  solve [ reflexivity | exact I | lra | vm_compute; discriminate ].

Section SegmentFacts.

Implicit Types (bounds ts : list Q) (D minDuration : Q).

Lemma sceneSegments_step a b bounds :
  sceneSegments (a :: b :: bounds) =
  mkSegment a b (b - a) :: sceneSegments (b :: bounds).
Proof. reflexivity. Qed.

Lemma validSegments_step minDuration a b bounds :
  validSegments minDuration (a :: b :: bounds) =
  if JS.ge (b - a) minDuration
  then mkSegment a b (b - a) :: validSegments minDuration (b :: bounds)
  else validSegments minDuration (b :: bounds).
Proof. reflexivity. Qed.

Lemma sceneSegments_length a bounds :
  length (sceneSegments (a :: bounds)) = length bounds.
Proof.
  revert a. induction bounds as [|b bounds IH]; intros a; [reflexivity|].
  cbn [sceneSegments length]. f_equal. apply IH.
Qed.

Lemma last_cons_default (l : list Q) b a :
  List.last (b :: l) a = List.last l b.
Proof.
  revert b a. induction l as [|c l IH]; intros b a; [reflexivity|].
  change (List.last (b :: c :: l) a) with (List.last (c :: l) a).
  rewrite (IH c a), (IH c b). reflexivity.
Qed.

Lemma sceneSegments_chained a bounds :
  chained a (sceneSegments (a :: bounds)) (List.last bounds a).
Proof.
  revert a. induction bounds as [|b bounds IH]; intros a; [reflexivity|].
  cbn [sceneSegments chained seg_start seg_end]. split; [reflexivity|].
  rewrite last_cons_default. apply IH.
Qed.

Lemma sceneSegments_total a bounds :
  totalDuration (sceneSegments (a :: bounds)) == List.last bounds a - a.
Proof.
  revert a. induction bounds as [|b bounds IH]; intros a.
  - cbn. lra.
  - rewrite last_cons_default.
    change (totalDuration (sceneSegments (a :: b :: bounds)))
      with ((b - a) + totalDuration (sceneSegments (b :: bounds))).
    rewrite IH. lra.
Qed.

Lemma sceneSegments_duration bounds :
  Forall (fun s => seg_duration s = seg_end s - seg_start s)
         (sceneSegments bounds).
Proof.
  induction bounds as [|a [|b bounds] IH]; try constructor.
  - reflexivity.
  - exact IH.
Qed.

Lemma last_snoc_default (l : list Q) x d : List.last (l ++ [x]) d = x.
Proof. apply List.last_last. Qed.

(** The filter of [mergeScenes] is [List.filter] over the segments of
    [splitByScenes]. *)
Lemma validSegments_filter minDuration bounds :
  validSegments minDuration bounds =
  List.filter (fun s => JS.ge (seg_duration s) minDuration)
              (sceneSegments bounds).
Proof.
  induction bounds as [|a [|b bounds] IH]; try reflexivity.
  rewrite validSegments_step, sceneSegments_step, IH.
  cbn [List.filter seg_duration].
  destruct (JS.ge (b - a) minDuration); reflexivity.
Qed.

Lemma increasingWithin_positive lo ts hi :
  increasingWithin lo ts hi ->
  Forall (fun s => seg_start s < seg_end s) (sceneSegments (lo :: ts ++ [hi])).
Proof.
  revert lo. induction ts as [|t ts IH]; intros lo H.
  - cbn in *. repeat constructor. exact H.
  - destruct H as [Hlt H]. cbn [app sceneSegments].
    constructor; [exact Hlt|]. apply (IH t H).
Qed.

End SegmentFacts.

(** The end-to-end scenario of the specification: a 35.05 s video with
    change points 15.2 and 30.0. *)
Example scenario_segments :
  sameSegments (sceneSegments (allTimestamps [15.2; 30.0] 35.05))
               [ mkSegment 0 15.2 15.2; mkSegment 15.2 30 14.8;
                 mkSegment 30 35.05 5.05 ]
  /\ sceneSegments (allTimestamps [15.2; 30.0] 35.05)
     = validSegments 3 (allTimestamps [15.2; 30.0] 35.05).
Proof. split; [repeat constructor; vm_compute; reflexivity|reflexivity]. Qed.

(** C1. For every change-point list [ts] and total duration [D] (in
    particular for every strictly increasing list inside (0, D)), the loop of
    splitByScenes/mergeScenes over [[0, ...ts, D]] visits exactly
    [length ts + 1] segments; the first starts at 0, each starts where the
    previous one ends, the last ends at [D]; every duration is [end - start];
    the durations add up to [D]; and with no change point the only segment
    is [0, D).  The ordering hypothesis of the claim is not needed for any of
    these. *)
Theorem C1_segments_cover (ts : list Q) (D : Q) :
  let segs := sceneSegments (allTimestamps ts D) in
  length segs = S (length ts)
  /\ chained 0 segs D
  /\ Forall (fun s => seg_duration s = seg_end s - seg_start s) segs
  /\ totalDuration segs == D
  /\ (ts = [] -> segs = [mkSegment 0 D (D - 0)]).
Proof.
  unfold allTimestamps. cbn zeta. repeat split.
  - rewrite sceneSegments_length, length_app. cbn. lia.
  - pose proof (sceneSegments_chained 0 (ts ++ [D])) as H.
    rewrite last_snoc_default in H. exact H.
  - apply sceneSegments_duration.
  - rewrite sceneSegments_total, last_snoc_default. lra.
  - intros ->. reflexivity.
Qed.

(** C2. The duration filter of mergeScenes returns a sublist of the segments
    it is given (same order, nothing merged or altered), every segment it
    returns has [duration >= minDuration], and every segment with
    [duration >= minDuration] is returned. *)
Theorem C2_filter_sublist (minDuration : Q) (bounds : list Q) :
  sublist (validSegments minDuration bounds) (sceneSegments bounds)
  /\ Forall (fun s => minDuration <= seg_duration s)
            (validSegments minDuration bounds)
  /\ (forall s, In s (sceneSegments bounds) ->
                minDuration <= seg_duration s ->
                In s (validSegments minDuration bounds)).
Proof.
  rewrite validSegments_filter.
  set (keep := fun s => JS.ge (seg_duration s) minDuration).
  repeat split.
  - induction (sceneSegments bounds) as [|s l IH]; cbn.
    + constructor.
    + destruct (keep s); [apply sublist_skip | apply sublist_cons]; exact IH.
  - apply List.Forall_forall. intros s Hs.
    apply List.filter_In in Hs. destruct Hs as [_ Hs].
    apply JS_ge_true. exact Hs.
  - intros s Hin Hle. apply List.filter_In. split; [exact Hin|].
    apply JS_ge_true. exact Hle.
Qed.

Section SilenceFacts.

Implicit Types (ks : list Segment) (sl : list SilenceInterval).

Lemma orderedFrom_weaken c c' ks :
  c' <= c -> orderedFrom c ks -> orderedFrom c' ks.
Proof.
  destruct ks as [|k ks]; [trivial|].
  intros Hc (H1 & H2 & H3). cbn. repeat split; try assumption. lra.
Qed.

Lemma orderedFrom_lower c ks :
  orderedFrom c ks -> Forall (fun k => c <= seg_start k) ks.
Proof.
  revert c. induction ks as [|k ks IH]; intros c H; constructor.
  - apply H.
  - destruct H as (H1 & H2 & H3).
    apply IH. apply orderedFrom_weaken with (c := seg_end k); [lra|exact H3].
Qed.

Lemma orderedFrom_nonOverlapping c ks :
  orderedFrom c ks -> nonOverlapping ks.
Proof.
  revert c. induction ks as [|k ks IH]; intros c H i j a b Hij Ha Hb.
  - discriminate.
  - destruct H as (H1 & H2 & H3).
    destruct j as [|j]; [lia|]. cbn in Hb.
    destruct i as [|i].
    + cbn in Ha. injection Ha as <-.
      pose proof (orderedFrom_lower _ _ H3) as Hall.
      rewrite List.Forall_forall in Hall. apply Hall.
      apply list_elem_of_In. eapply list_elem_of_lookup_2. exact Hb.
    + cbn in Ha. apply (IH _ H3 i j); [lia|assumption..].
Qed.

Lemma nonOverlapping_timeOrdered ks : nonOverlapping ks -> timeOrdered ks.
Proof. intros H i a b Ha Hb. apply (H i (S i)); [lia|assumption..]. Qed.

Lemma orderedFrom_wellFormed c ks :
  orderedFrom c ks -> Forall (fun k => seg_start k <= seg_end k) ks.
Proof.
  revert c. induction ks as [|k ks IH]; intros c H; constructor.
  - apply H.
  - apply (IH (seg_end k)). apply H.
Qed.

Lemma silenceLoop_step s sl padding c :
  silenceLoop (s :: sl) padding c =
  let c' := Qmax (JS.toNumber (sil_end s) - padding) (sil_start s) in
  ((if JS.gt (sil_start s) c
    then [ mkSegment c (Qmin (sil_start s + padding) (JS.toNumber (sil_end s)))
             (sil_start s - c + padding) ]
    else []) ++ fst (silenceLoop sl padding c'),
   snd (silenceLoop sl padding c')).
Proof.
  cbn [silenceLoop]. destruct (silenceLoop sl padding _). reflexivity.
Qed.

(** The walk, final push included, from any [currentTime] not after the
    first silence. *)
Lemma walk_orderedFrom sl : forall padding total c lo,
  0 <= padding -> c <= lo ->
  silencesOrdered lo sl -> silencesLast (2 * padding) sl ->
  orderedFrom c (fst (silenceLoop sl padding c)
                 ++ lastSegment (snd (silenceLoop sl padding c)) total).
Proof.
  induction sl as [|s sl IH]; intros padding total c lo Hp Hc Hord Hlast.
  - cbn. unfold lastSegment. destruct (JS.lt c total) eqn:E; [|exact I].
    apply JS_lt_true in E. cbn. repeat split; lra.
  - destruct Hord as (e & He & Hlo & Hse & Hord).
    apply List.Forall_cons_iff in Hlast.
    destruct Hlast as [(e' & He' & Hlen) Hlast].
    rewrite He in He'. injection He' as <-.
    rewrite silenceLoop_step. cbn zeta. cbn [fst snd].
    rewrite He. cbn [JS.toNumber].
    set (c' := Qmax (e - padding) (sil_start s)).
    assert (Hc'e : c' <= e).
    { unfold c'. destruct (Q.max_spec (e - padding) (sil_start s)) as [[? ?]|[? ?]]; lra. }
    assert (Hc's : sil_start s <= c').
    { unfold c'. destruct (Q.max_spec (e - padding) (sil_start s)) as [[? ?]|[? ?]]; lra. }
    assert (Hmin : Qmin (sil_start s + padding) e <= c').
    { unfold c'.
      destruct (Q.max_spec (e - padding) (sil_start s)) as [[? ?]|[? ?]];
      destruct (Q.min_spec (sil_start s + padding) e) as [[? ?]|[? ?]]; lra. }
    specialize (IH padding total c' e Hp Hc'e Hord Hlast).
    destruct (JS.gt (sil_start s) c) eqn:E.
    + apply JS_gt_true in E. cbn [app orderedFrom seg_start seg_end].
      repeat split.
      * lra.
      * destruct (Q.min_spec (sil_start s + padding) e) as [[? ?]|[? ?]]; lra.
      * eapply orderedFrom_weaken; [exact Hmin|exact IH].
    + cbn [app]. eapply orderedFrom_weaken; [|exact IH]. lra.
Qed.

(** When no silence is shorter than the padding, every emitted interval
    has [duration = end - start]. *)
Lemma walk_durations sl : forall padding total c,
  silencesLast padding sl ->
  Forall (fun k => seg_duration k == seg_end k - seg_start k)
         (fst (silenceLoop sl padding c)
          ++ lastSegment (snd (silenceLoop sl padding c)) total).
Proof.
  induction sl as [|s sl IH]; intros padding total c Hlast.
  - cbn. unfold lastSegment.
    destruct (JS.lt c total); [|constructor].
    constructor; [cbn; lra|constructor].
  - apply List.Forall_cons_iff in Hlast.
    destruct Hlast as [(e & He & Hlen) Hlast].
    rewrite silenceLoop_step. cbn zeta. cbn [fst snd].
    rewrite He. cbn [JS.toNumber].
    destruct (JS.gt (sil_start s) c); cbn [app].
    + constructor; [|apply IH; exact Hlast].
      cbn [seg_start seg_end seg_duration].
      destruct (Q.min_spec (sil_start s + padding) e) as [[? ?]|[? ?]]; lra.
    + apply IH; exact Hlast.
Qed.

Lemma audioSegments_unfold sl total padding :
  audioSegments sl total padding =
  fst (silenceLoop sl padding 0)
  ++ lastSegment (snd (silenceLoop sl padding 0)) total.
Proof. unfold audioSegments. destruct (silenceLoop sl padding 0). reflexivity. Qed.

End SilenceFacts.

(** C4, as stated, fails: for the single silence [10, 10.15] with padding
    0.1 in a 20 s video the walk emits [0, 10.1] and then [10.05, 20], and
    the second starts before the first ends. *)
Lemma C4_counterexample :
  silencesOrdered 0 shortSilence /\ 0 <= 0.1
  /\ sameSegments (audioSegments shortSilence 20 0.1)
                  [ mkSegment 0 10.1 10.1; mkSegment 10.05 20 9.95 ]
  /\ ~ timeOrdered (audioSegments shortSilence 20 0.1).
Proof.
  split; [|split; [|split]].
  - exists 10.15. repeat split; closed_Q.
  - closed_Q.
  - repeat constructor; vm_compute; reflexivity.
  - intros H. specialize (H 0%nat _ _ eq_refl eq_refl).
    vm_compute in H. apply H. reflexivity.
Qed.

(** C4, amended. For closed silences in time order, pairwise disjoint, each
    lasting at least twice the padding, and padding >= 0, the keep intervals
    of the walk are time-ordered (each starts at or after the end of the one
    emitted before it), pairwise non-overlapping, and each has
    [start <= end]. *)
Theorem C4_keep_intervals_ordered
    (silences : list SilenceInterval) (total padding : Q) :
  0 <= padding ->
  silencesOrdered 0 silences ->
  silencesLast (2 * padding) silences ->
  let ks := audioSegments silences total padding in
  timeOrdered ks /\ nonOverlapping ks
  /\ Forall (fun k => seg_start k <= seg_end k) ks.
Proof.
  intros Hp Hord Hlast ks. subst ks. rewrite audioSegments_unfold.
  assert (H0 : 0 <= 0) by lra.
  pose proof (walk_orderedFrom silences padding total 0 0 Hp H0 Hord Hlast)
    as H.
  pose proof (orderedFrom_nonOverlapping _ _ H) as Hno.
  split; [|split].
  - apply nonOverlapping_timeOrdered, Hno.
  - exact Hno.
  - exact (orderedFrom_wellFormed _ _ H).
Qed.

Lemma C4_keep_intervals_ordered_witness :
  let ks := audioSegments twoSilences 20 0.1 in
  timeOrdered ks /\ nonOverlapping ks
  /\ Forall (fun k => seg_start k <= seg_end k) ks.
Proof.
  apply (C4_keep_intervals_ordered twoSilences 20 0.1).
  - closed_Q.
  - exists 2. repeat split; try closed_Q.
    exists 10.4. repeat split; closed_Q.
  - repeat constructor.
    + exists 2. split; closed_Q.
    + exists 10.4. split; closed_Q.
Defined.

(** C5: the code at the failing input.  [detectSilence] pairs one start
    marker and no end marker into an interval whose [end] is null; the walk
    of [removeSilence] then computes with ToNumber(null) = 0: it emits
    [start 0, end 0, duration 5.1] and keeps the whole trailing silence
    [5, 10].  With the interval closed at the total duration it emits
    [0, 5.1] and [9.9, 10]. *)
Theorem C5_open_ended_silence :
  openSilence = [ mkSilence 5 None None ]
  /\ sameSegments (audioSegments openSilence 10 0.1)
                  [ mkSegment 0 0 5.1; mkSegment 5 10 5 ]
  /\ sameSegments (audioSegments closedSilence 10 0.1)
                  [ mkSegment 0 5.1 5.1; mkSegment 9.9 10 0.1 ].
Proof.
  split; [reflexivity|].
  split; repeat constructor; vm_compute; reflexivity.
Qed.

(** C6: the code at the failing input.  For the silence [1, 1.05] with
    padding 0.1 the first interval pushed is [start 0, end 1.05,
    duration 1.1]: [end] is clamped by [Math.min] to the end of the silence,
    [duration] is not, and [duration] differs from [end - start]. *)
Theorem C6_duration_field :
  sameSegments (audioSegments briefSilence 10 0.1)
               [ mkSegment 0 1.05 1.1; mkSegment 1 10 9 ]
  /\ exists k, audioSegments briefSilence 10 0.1 !! 0%nat = Some k
               /\ ~ seg_duration k == seg_end k - seg_start k.
Proof.
  split; [repeat constructor; vm_compute; reflexivity|].
  eexists. split; [reflexivity|].
  vm_compute. discriminate.
Qed.

Section SortFacts.

Context {A : Type} (compareFn : A -> A -> Q).

Lemma insertSorted_In x z (l : list A) :
  In z (insertSorted compareFn x l) <-> z = x \/ In z l.
Proof.
  induction l as [|y l IH]; cbn.
  - intuition congruence.
  - destruct (JS.gt (compareFn x y) 0); cbn; rewrite ?IH;
      intuition congruence.
Qed.

Lemma Array_sort_In z (l : list A) :
  In z (Array_sort compareFn l) <-> In z l.
Proof.
  induction l as [|x l IH]; [reflexivity|].
  cbn. rewrite insertSorted_In, IH. intuition congruence.
Qed.

(** A stable sort leaves an array of ties as it is. *)
Lemma Array_sort_ties (l : list A) :
  (forall a b, In a l -> In b l -> compareFn a b <= 0) ->
  Array_sort compareFn l = l.
Proof.
  induction l as [|x l IH]; intros Hties; [reflexivity|].
  cbn. fold (Array_sort compareFn l). rewrite IH.
  - destruct l as [|y l]; [reflexivity|]. cbn.
    destruct (JS.gt (compareFn x y) 0) eqn:E; [|reflexivity].
    apply JS_gt_true in E.
    specialize (Hties x y (or_introl eq_refl) (or_intror (or_introl eq_refl))).
    lra.
  - intros a b Ha Hb. apply Hties; right; assumption.
Qed.

End SortFacts.

(** The tie-break of [frames.sort((a, b) => b.score - a.score)]: the first
    element of the sorted array is the earliest frame with the highest
    score. *)
Lemma Array_sort_head_earliest (frames : list Frame) best rest :
  Array_sort (fun a b => score b - score a) frames = best :: rest ->
  exists pre post,
    frames = pre ++ best :: post
    /\ Forall (fun f => score f < score best) pre
    /\ Forall (fun f => score f <= score best) post.
Proof.
  revert best rest. induction frames as [|x l IH]; intros best rest H.
  - discriminate.
  - cbn in H. fold (Array_sort (fun a b => score b - score a) l) in H.
    destruct (Array_sort (fun a b => score b - score a) l) as [|y r] eqn:Hl.
    + assert (l = []) as ->.
      { destruct l as [|z l]; [reflexivity|]. exfalso.
        assert (Hz : In z (Array_sort (fun a b => score b - score a) (z :: l)))
          by (apply Array_sort_In; left; reflexivity).
        rewrite Hl in Hz. exact Hz. }
      cbn in H. injection H as <- _.
      exists [], []. repeat split; constructor.
    + destruct (IH y r eq_refl) as (pre & post & -> & Hpre & Hpost).
      cbn [insertSorted] in H.
      destruct (JS.gt (score y - score x) 0) eqn:E.
      * apply JS_gt_true in E. injection H as <- _.
        exists (x :: pre), post. repeat split.
        -- constructor; [lra|exact Hpre].
        -- exact Hpost.
      * apply JS_gt_false in E. injection H as <- _.
        exists [], (pre ++ y :: post). repeat split; [constructor|].
        apply List.Forall_app. split; [|constructor].
        -- eapply List.Forall_impl; [|exact Hpre]. cbn. intros f Hf. lra.
        -- lra.
        -- eapply List.Forall_impl; [|exact Hpost]. cbn. intros f Hf. lra.
Qed.

Section ThumbnailFacts.

Lemma ofIndex_nonneg i : 0 <= ofIndex i.
Proof.
  unfold ofIndex. change 0 with (inject_Z 0). rewrite <- Zle_Qle. lia.
Qed.

Lemma ofIndex_pos n : (0 < n)%nat -> 0 < ofIndex n.
Proof.
  intros H. unfold ofIndex. change 0 with (inject_Z 0).
  rewrite <- Zlt_Qlt. lia.
Qed.

Lemma ofIndex_le i n : (i <= n)%nat -> ofIndex i <= ofIndex n.
Proof. intros H. unfold ofIndex. rewrite <- Zle_Qle. lia. Qed.

Lemma sampleFrames_In qualityFn startTime interval n f :
  In f (sampleFrames qualityFn startTime interval n) ->
  exists i, (i < n)%nat /\ timestamp f = startTime + ofIndex i * interval.
Proof.
  unfold sampleFrames. intros H. apply List.in_map_iff in H.
  destruct H as (i & <- & Hi). apply List.in_seq in Hi.
  exists i. split; [lia|reflexivity].
Qed.

Lemma sampleFrames_score qualityFn startTime interval n f :
  In f (sampleFrames qualityFn startTime interval n) ->
  score f = qualityFn (timestamp f).
Proof.
  unfold sampleFrames. intros H. apply List.in_map_iff in H.
  destruct H as (i & <- & _). reflexivity.
Qed.

(** Every candidate lies in the window [0.1*D, 0.9*D]. *)
Lemma candidate_window D n i :
  0 <= D -> (i < n)%nat ->
  0.1 * D <= candidate D n i /\ candidate D n i <= 0.9 * D.
Proof.
  intros HD Hi. unfold candidate.
  set (w := D * 0.9 - D * 0.1).
  assert (Hw : 0 <= w) by (unfold w; lra).
  assert (Hn : 0 < ofIndex n) by (apply ofIndex_pos; lia).
  assert (Hstep : 0 <= w / ofIndex n).
  { apply Qle_shift_div_l; [exact Hn|]. lra. }
  assert (Hlo : 0 <= ofIndex i * (w / ofIndex n)).
  { apply Qmult_le_0_compat; [apply ofIndex_nonneg|exact Hstep]. }
  assert (Hhi : ofIndex i * (w / ofIndex n) <= w).
  { assert (Hle : ofIndex i <= ofIndex n) by (apply ofIndex_le; lia).
    apply Qle_trans with (ofIndex n * (w / ofIndex n)).
    - apply Qmult_le_compat_r; assumption.
    - assert (Heq : ofIndex n * (w / ofIndex n) == w)
        by (field; intros H0; rewrite H0 in Hn; lra).
      rewrite Heq. lra. }
  unfold w in *. split; lra.
Qed.

End ThumbnailFacts.

(** C8. With a duration D > 0, candidateCount > 0 and a quality function
    that gives every timestamp the same score, findBestThumbnailFrame
    returns the first sampled candidate, which is 0.1*D. *)
Theorem C8_constant_quality_first
    (qualityFn : Q -> Q) (D : Q) (candidateCount : nat) :
  0 < D -> (0 < candidateCount)%nat ->
  (forall t t', qualityFn t == qualityFn t') ->
  findBestThumbnailFrameWith qualityFn D candidateCount
    = Some (candidate D candidateCount 0)
  /\ candidate D candidateCount 0 == 0.1 * D.
Proof.
  intros HD Hn Hconst. split.
  - unfold findBestThumbnailFrameWith.
    rewrite Array_sort_ties.
    + destruct candidateCount as [|n]; [lia|]. reflexivity.
    + intros a b Ha Hb. cbn beta.
      rewrite (sampleFrames_score _ _ _ _ _ Ha), (sampleFrames_score _ _ _ _ _ Hb).
      rewrite (Hconst (timestamp b) (timestamp a)). lra.
  - unfold candidate, ofIndex. cbn [Z.of_nat]. change (inject_Z 0) with 0.
    rewrite Qmult_0_l. lra.
Qed.

(** The scoring of the source is such a function when its own
    [getVideoInfo] throws for every candidate: every score is the base
    score. *)
Lemma C8_constant_quality_first_witness :
  findBestThumbnailFrame 100 (fun _ => None) 10 = Some (candidate 100 10 0)
  /\ candidate 100 10 0 == 0.1 * 100.
Proof.
  apply (C8_constant_quality_first (fun t => evaluateFrameQuality None t)
                                   100 10).
  - closed_Q.
  - lia.
  - intros t t'. reflexivity.
Defined.

(** C9. With a duration D > 0 and candidateCount > 0, whatever the quality
    function, findBestThumbnailFrame returns a timestamp; it is one of the
    candidates [0.1*D + i * ((0.9*D - 0.1*D) / candidateCount)] with
    [0 <= i < candidateCount], and it lies within [0.1*D, 0.9*D]. *)
Theorem C9_best_frame_in_window
    (qualityFn : Q -> Q) (D : Q) (candidateCount : nat) :
  0 < D -> (0 < candidateCount)%nat ->
  exists i, (i < candidateCount)%nat
    /\ findBestThumbnailFrameWith qualityFn D candidateCount
       = Some (candidate D candidateCount i)
    /\ 0.1 * D <= candidate D candidateCount i
    /\ candidate D candidateCount i <= 0.9 * D.
Proof.
  intros HD Hn. unfold findBestThumbnailFrameWith.
  set (frames := sampleFrames qualityFn (D * 0.1)
                   ((D * 0.9 - D * 0.1) / ofIndex candidateCount)
                   candidateCount).
  set (compareFn := fun a b : Frame => score b - score a).
  destruct (Array_sort compareFn frames) as [|bestFrame rest] eqn:Hsorted.
  - exfalso.
    assert (Hin : exists f, In f frames).
    { unfold frames, sampleFrames.
      destruct candidateCount as [|n]; [lia|]. cbn. eauto. }
    destruct Hin as [f Hf]. apply (Array_sort_In compareFn) in Hf.
    rewrite Hsorted in Hf. exact Hf.
  - assert (Hbest : In bestFrame frames).
    { apply (Array_sort_In compareFn). rewrite Hsorted. left. reflexivity. }
    apply sampleFrames_In in Hbest. destruct Hbest as (i & Hi & Hts).
    exists i. split; [exact Hi|]. split.
    + rewrite Hts. reflexivity.
    + apply candidate_window; [lra|exact Hi].
Qed.

Lemma C9_best_frame_in_window_witness :
  exists i, (i < 10)%nat
    /\ findBestThumbnailFrame 100 (fun _ => Some 100) 10
       = Some (candidate 100 10 i)
    /\ 0.1 * 100 <= candidate 100 10 i
    /\ candidate 100 10 i <= 0.9 * 100.
Proof.
  apply (C9_best_frame_in_window (fun t => evaluateFrameQuality (Some 100) t)
                                 100 10).
  - closed_Q.
  - lia.
Defined.

Section RunFacts.

Context {A B : Type}.

Lemma bind_unfold (m : Run A) (k : A -> Run B) fs :
  (m ≫= k) fs =
  match m fs with
  | (Returned a, fs') => k a fs'
  | (Thrown e, fs') => (Thrown e, fs')
  end.
Proof. reflexivity. Qed.

(** A sequence returns only if both parts return. *)
Lemma bind_Returned (m : Run A) (k : A -> Run B) fs b fs' :
  (m ≫= k) fs = (Returned b, fs') ->
  exists a fs1, m fs = (Returned a, fs1) /\ k a fs1 = (Returned b, fs').
Proof.
  rewrite bind_unfold. destruct (m fs) as [[a|e] fs1]; intros H.
  - exists a, fs1. split; [reflexivity|exact H].
  - discriminate.
Qed.

End RunFacts.

Lemma Returned_inv {A : Type} (a b : A) (fs fs' : gset string) :
  (Returned a, fs) = (Returned b, fs') -> a = b /\ fs = fs'.
Proof. intros H. injection H as Ha Hfs. split; assumption. Qed.

Section NeverThrows.

Context (E : Engine).

Lemma neverThrows_ret {A} e (a : A) : neverThrows e (mret a).
Proof. intros fs. discriminate. Qed.

Lemma neverThrows_bind {A B} e (m : Run A) (k : A -> Run B) :
  neverThrows e m -> (forall a, neverThrows e (k a)) ->
  neverThrows e (m ≫= k).
Proof.
  intros Hm Hk fs. rewrite bind_unfold. specialize (Hm fs).
  destruct (m fs) as [[a|e'] fs1]; cbn in *.
  - apply Hk.
  - intros Heq. apply Hm. injection Heq as ->. reflexivity.
Qed.

Lemma neverThrows_exec cmd : neverThrows NoValidSegments (exec E cmd).
Proof.
  intros fs. unfold exec. destruct (ffmpeg E cmd fs) as [[|] fs1];
    discriminate.
Qed.

Lemma neverThrows_existsSync e p : neverThrows e (existsSync p).
Proof. intros fs. discriminate. Qed.

Lemma neverThrows_writeFileSync e p : neverThrows e (writeFileSync p).
Proof. intros fs. discriminate. Qed.

Lemma neverThrows_unlinkSync p : neverThrows NoValidSegments (unlinkSync p).
Proof.
  intros fs. unfold unlinkSync. destruct (bool_decide (p ∈ fs)); discriminate.
Qed.

Lemma neverThrows_guardedUnlink p (found : bool) :
  neverThrows NoValidSegments (if found then unlinkSync p else mret tt).
Proof.
  destruct found; [apply neverThrows_unlinkSync|apply neverThrows_ret].
Qed.

Lemma neverThrows_extractLoop videoPath segs : forall i,
  neverThrows NoValidSegments (extractLoop E videoPath i segs).
Proof.
  induction segs as [|seg segs IH]; intros i; cbn [extractLoop].
  - apply neverThrows_ret.
  - apply neverThrows_bind; [apply neverThrows_exec|]. intros _.
    apply neverThrows_bind; [apply IH|]. intros tempFiles.
    apply neverThrows_ret.
Qed.

Lemma neverThrows_unlinkAll files :
  neverThrows NoValidSegments (unlinkAll files).
Proof.
  induction files as [|f files IH]; cbn [unlinkAll].
  - apply neverThrows_ret.
  - apply neverThrows_bind; [apply neverThrows_existsSync|]. intros found.
    apply neverThrows_bind; [apply neverThrows_guardedUnlink|]. intros _.
    exact IH.
Qed.

End NeverThrows.

Section OrchestratorFacts.

Context (E : Engine).

Lemma getDuration_probed videoPath fs D :
  probedDuration E videoPath fs = Some D ->
  getDuration E videoPath fs = (Returned D, fs).
Proof. intros H. unfold getDuration. rewrite H. reflexivity. Qed.

Lemma getDuration_Returned videoPath fs D fs' :
  getDuration E videoPath fs = (Returned D, fs') ->
  probedDuration E videoPath fs = Some D /\ fs' = fs.
Proof.
  unfold getDuration. destruct (probedDuration E videoPath fs); intros H.
  - injection H as -> ->. split; reflexivity.
  - discriminate.
Qed.

Lemma filter_all_short minDuration (segs : list Segment) :
  Forall (fun s => seg_duration s < minDuration) segs ->
  List.filter (fun s => JS.ge (seg_duration s) minDuration) segs = [].
Proof.
  induction 1 as [|s segs Hs _ IH]; [reflexivity|]. cbn.
  apply JS_ge_false in Hs. rewrite Hs. exact IH.
Qed.

Lemma filter_some_long minDuration (segs : list Segment) :
  Exists (fun s => minDuration <= seg_duration s) segs ->
  List.filter (fun s => JS.ge (seg_duration s) minDuration) segs <> [].
Proof.
  intros H Hnil. apply List.Exists_exists in H. destruct H as (s & Hin & Hs).
  assert (Hf : In s (List.filter (fun s => JS.ge (seg_duration s) minDuration)
                                 segs)).
  { apply List.filter_In. split; [exact Hin|]. apply JS_ge_true. exact Hs. }
  rewrite Hnil in Hf. exact Hf.
Qed.

(** The temporary files of a completed extraction are
    [temp_scene_i.mp4], one per segment. *)
Lemma extractLoop_Returned videoPath segs : forall i fs files fs',
  extractLoop E videoPath i segs fs = (Returned files, fs') ->
  files = List.map tempFileName (seq i (length segs)).
Proof.
  induction segs as [|seg segs IH]; intros i fs files fs' H;
    cbn [extractLoop] in H.
  - injection H as <- _. reflexivity.
  - apply bind_Returned in H. destruct H as (_ & fs1 & _ & H).
    apply bind_Returned in H. destruct H as (rest & fs2 & Hrest & H).
    injection H as <- _. cbn [length seq List.map]. f_equal.
    exact (IH _ _ _ _ Hrest).
Qed.

(** The clean-up loop never throws and removes exactly the listed
    files. *)
Lemma unlinkAll_spec files : forall fs,
  unlinkAll files fs = (Returned tt, fs ∖ list_to_set files).
Proof.
  induction files as [|f files IH]; intros fs; cbn [unlinkAll].
  - unfold mret, Run_ret. f_equal. set_solver.
  - rewrite bind_unfold. cbn [existsSync]. unfold existsSync.
    rewrite bind_unfold.
    destruct (bool_decide (f ∈ fs)) eqn:Hf.
    + unfold unlinkSync. rewrite Hf. rewrite IH. f_equal.
      cbn [list_to_set foldr]. set_solver.
    + unfold mret at 1, Run_ret at 1. rewrite IH. f_equal.
      apply bool_decide_eq_false in Hf.
      cbn [list_to_set foldr]. set_solver.
Qed.

Lemma splitLoop_length path videoPath outputDir baseName bounds :
  forall i fs outputs fs',
  splitLoop path E videoPath outputDir baseName i bounds fs
    = (Returned outputs, fs') ->
  length outputs = length (sceneSegments bounds).
Proof.
  induction bounds as [|a bounds IH]; intros i fs outputs fs' H.
  - injection H as <- _. reflexivity.
  - destruct bounds as [|b bounds].
    + injection H as <- _. reflexivity.
    + cbn [splitLoop] in H.
      apply bind_Returned in H. destruct H as (_ & fs1 & _ & H).
      apply bind_Returned in H. destruct H as (rest & fs2 & Hrest & H).
      injection H as <- _. rewrite sceneSegments_step. cbn [length].
      f_equal. exact (IH _ _ _ _ Hrest).
Qed.

Lemma splitByScenes_length path videoPath timestamps outputDir fs clips fs' :
  splitByScenes path E videoPath timestamps outputDir fs
    = (Returned clips, fs') ->
  length clips = S (length timestamps).
Proof.
  unfold splitByScenes. intros H.
  apply bind_Returned in H. destruct H as (found & fs1 & _ & H).
  apply bind_Returned in H. destruct H as (_ & fs2 & _ & H).
  apply bind_Returned in H. destruct H as (duration & fs3 & _ & H).
  apply splitLoop_length in H. rewrite H.
  unfold allTimestamps. rewrite sceneSegments_length, length_app.
  cbn. lia.
Qed.

End OrchestratorFacts.

(** C3. Once the duration D of the video is known: if every segment of
    [[0, ...timestamps, D]] is shorter than minDuration, mergeScenes throws
    "No valid segments found after filtering" before it runs any command
    and leaves the file system as it was; if at least one segment has
    [duration >= minDuration], mergeScenes does not throw this error. *)
Theorem C3_no_valid_segments
    (E : Engine) (videoPath : string) (timestamps : list Q) (minDuration : Q)
    (outputFile : string) (fs : gset string) (D : Q) :
  probedDuration E videoPath fs = Some D ->
  let segs := sceneSegments (allTimestamps timestamps D) in
  (Forall (fun s => seg_duration s < minDuration) segs ->
   mergeScenes E videoPath timestamps minDuration outputFile fs
     = (Thrown NoValidSegments, fs))
  /\ (Exists (fun s => minDuration <= seg_duration s) segs ->
      fst (mergeScenes E videoPath timestamps minDuration outputFile fs)
        <> Thrown NoValidSegments).
Proof.
  intros HD segs. unfold mergeScenes. rewrite bind_unfold.
  rewrite (getDuration_probed E _ _ _ HD).
  rewrite validSegments_filter. fold segs. split.
  - intros Hshort. rewrite (filter_all_short _ _ Hshort). reflexivity.
  - intros Hlong. apply filter_some_long in Hlong.
    destruct (List.filter _ segs) as [|seg valid] eqn:Hvalid; [congruence|].
    cbn [length Nat.eqb].
    apply neverThrows_bind; [apply neverThrows_extractLoop|]. intros tempFiles.
    apply neverThrows_bind; [apply neverThrows_writeFileSync|]. intros _.
    apply neverThrows_bind; [apply neverThrows_exec|]. intros _.
    apply neverThrows_bind; [apply neverThrows_unlinkAll|]. intros _.
    apply neverThrows_bind; [apply neverThrows_existsSync|]. intros found.
    apply neverThrows_bind; [apply neverThrows_guardedUnlink|]. intros _.
    apply neverThrows_ret.
Qed.

Lemma C3_no_valid_segments_witness :
  let E := scriptedEngine 30 [10] nothingFails in
  mergeScenes E "video" [10] 25 "merged_scenes.mp4" ∅
    = (Thrown NoValidSegments, ∅)
  /\ fst (mergeScenes E "video" [10] 2 "merged_scenes.mp4" ∅)
       <> Thrown NoValidSegments.
Proof.
  intros E. split.
  - apply (C3_no_valid_segments E "video" [10] 25 "merged_scenes.mp4" ∅ 30);
      [reflexivity|].
    repeat constructor; vm_compute; reflexivity.
  - apply (C3_no_valid_segments E "video" [10] 2 "merged_scenes.mp4" ∅ 30);
      [reflexivity|].
    apply List.Exists_cons_hd. vm_compute. discriminate.
Defined.

(** C7, as stated, fails.  On an empty file system, with two segments to
    extract: when the second trim fails, mergeScenes throws and
    [temp_scene_0.mp4] is left behind; when the concatenation fails,
    mergeScenes throws and both temporary files and the manifest are left
    behind. *)
Lemma C7_counterexample :
  (let '(r, fs') :=
     mergeScenes (scriptedEngine 30 [10] secondTrimFails)
                 "video" [10] 2 "merged_scenes.mp4" ∅ in
   r = Thrown (CommandFailed (Trim 10 "video" (30 - 10) (tempFileName 1)))
   /\ tempFileName 0 ∈ fs')
  /\ (let '(r, fs') :=
        mergeScenes (scriptedEngine 30 [10] concatFails)
                    "video" [10] 2 "merged_scenes.mp4" ∅ in
      r = Thrown (CommandFailed (Concat "merge_list.txt" "merged_scenes.mp4"))
      /\ tempFileName 0 ∈ fs' /\ tempFileName 1 ∈ fs'
      /\ "merge_list.txt" ∈ fs').
Proof.
  split.
  - assert (H : mergeScenes (scriptedEngine 30 [10] secondTrimFails)
                  "video" [10] 2 "merged_scenes.mp4" ∅
                = (Thrown (CommandFailed
                             (Trim 10 "video" (30 - 10) (tempFileName 1))),
                   {[tempFileName 0]} ∪ ∅))
      by (vm_compute; reflexivity).
    rewrite H. split; [reflexivity|set_solver].
  - assert (H : mergeScenes (scriptedEngine 30 [10] concatFails)
                  "video" [10] 2 "merged_scenes.mp4" ∅
                = (Thrown (CommandFailed
                             (Concat "merge_list.txt" "merged_scenes.mp4")),
                   {["merge_list.txt"]}
                   ∪ ({[tempFileName 1]} ∪ ({[tempFileName 0]} ∪ ∅))))
      by (vm_compute; reflexivity).
    rewrite H. split; [reflexivity|]. repeat split; set_solver.
Qed.

(** C7, amended. When mergeScenes returns (every trim and the concatenation
    succeeded), none of the temporary files [temp_scene_i.mp4] of the run
    and no [merge_list.txt] exists afterwards. *)
Theorem C7_cleanup_after_success
    (E : Engine) (videoPath : string) (timestamps : list Q) (minDuration : Q)
    (outputFile : string) (fs : gset string) (r : string) (fs' : gset string) :
  mergeScenes E videoPath timestamps minDuration outputFile fs
    = (Returned r, fs') ->
  exists D, probedDuration E videoPath fs = Some D
    /\ (forall i : nat,
          (i < length (validSegments minDuration (allTimestamps timestamps D)))%nat
          -> tempFileName i ∉ fs')
    /\ "merge_list.txt" ∉ fs'.
Proof.
  unfold mergeScenes. intros H.
  apply bind_Returned in H. destruct H as (D & fs0 & HD & H).
  apply getDuration_Returned in HD. destruct HD as [HD ->].
  exists D. split; [exact HD|].
  destruct (length (validSegments minDuration (allTimestamps timestamps D))
            =? 0)%nat; [discriminate|].
  apply bind_Returned in H. destruct H as (tempFiles & fs1 & Hfiles & H).
  apply extractLoop_Returned in Hfiles.
  apply bind_Returned in H. destruct H as (_ & fs2 & _ & H).
  apply bind_Returned in H. destruct H as (_ & fs3 & _ & H).
  apply bind_Returned in H. destruct H as (u & fs4 & Hclean & H).
  rewrite unlinkAll_spec in Hclean.
  apply Returned_inv in Hclean. destruct Hclean as [_ Hfs4].
  apply bind_Returned in H. destruct H as (found & fs5 & Hfound & H).
  apply Returned_inv in Hfound. destruct Hfound as [Hfound Hfs5].
  apply bind_Returned in H. destruct H as (u' & fs6 & Hunlink & H).
  apply Returned_inv in H. destruct H as [_ Hfs'].
  subst fs' fs5 fs4.
  assert (Hfs6 : fs6 = (fs3 ∖ list_to_set tempFiles) ∖ {["merge_list.txt"]}).
  { destruct found.
    - unfold unlinkSync in Hunlink. rewrite Hfound in Hunlink.
      apply Returned_inv in Hunlink. symmetry. apply Hunlink.
    - apply bool_decide_eq_false in Hfound.
      apply Returned_inv in Hunlink. destruct Hunlink as [_ <-].
      clear - Hfound. set_solver. }
  rewrite Hfs6. split.
  - intros i Hi.
    assert (Hin : tempFileName i ∈ tempFiles).
    { rewrite Hfiles. apply list_elem_of_In, List.in_map, List.in_seq. lia. }
    clear - Hin. set_solver.
  - set_solver.
Qed.

Lemma C7_cleanup_after_success_witness :
  match mergeScenes (scriptedEngine 30 [10] nothingFails)
                    "video" [10] 2 "merged_scenes.mp4" ∅ with
  | (Returned _, fs') =>
      (tempFileName 0 ∉ fs') /\ (tempFileName 1 ∉ fs')
      /\ ("merge_list.txt" ∉ fs')
  | (Thrown _, _) => False
  end.
Proof.
  destruct (mergeScenes _ _ _ _ _ _) as [[r|e] fs'] eqn:H.
  - destruct (C7_cleanup_after_success _ _ _ _ _ _ _ _ H)
      as (D & HD & Htemp & Hlist).
    injection HD as <-.
    split; [|split]; [apply Htemp; vm_compute; lia..|exact Hlist].
  - vm_compute in H. discriminate.
Defined.

(** C10. Whenever autoEdit returns, its result has
    [clipsCreated = scenesDetected + 1]. *)
Theorem C10_clips_one_more_than_scenes
    (path : NodePath) (E : Engine) (videoPath : string)
    (minDuration threshold : Q) (fs : gset string)
    (r : AutoEditResult) (fs' : gset string) :
  autoEdit path E videoPath minDuration threshold fs = (Returned r, fs') ->
  clipsCreated r = (scenesDetected r + 1)%nat.
Proof.
  unfold autoEdit. intros H.
  apply bind_Returned in H. destruct H as (duration & fs1 & _ & H).
  apply bind_Returned in H. destruct H as (detected & fs2 & _ & H).
  apply bind_Returned in H. destruct H as (timestamps & fs3 & _ & H).
  apply bind_Returned in H. destruct H as (clips & fs4 & Hclips & H).
  apply bind_Returned in H. destruct H as (finalFile & fs5 & _ & H).
  injection H as <- _. cbn [clipsCreated scenesDetected].
  apply splitByScenes_length in Hclips. lia.
Qed.

Lemma C10_clips_one_more_than_scenes_witness :
  match autoEdit posixPath (scriptedEngine 35.05 [15.2; 30.0] nothingFails)
                 "video" 3 0.3 {["video"]} with
  | (Returned r, _) =>
      scenesDetected r = 2%nat /\ clipsCreated r = (scenesDetected r + 1)%nat
  | (Thrown _, _) => False
  end.
Proof.
  destruct (autoEdit _ _ _ _ _ _) as [[r|e] fs'] eqn:H.
  - split.
    + vm_compute in H. injection H as <- _. reflexivity.
    + exact (C10_clips_one_more_than_scenes _ _ _ _ _ _ _ _ H).
  - vm_compute in H. discriminate.
Defined.

(** * Part III: further properties of the code *)

(** ** The frame scorer *)

Section ScorerFacts.

Lemma sampleFrames_lookup qualityFn startTime interval n (i : nat) :
  (i < n)%nat ->
  sampleFrames qualityFn startTime interval n !! i
  = Some (mkFrame (startTime + ofIndex i * interval)
                  (qualityFn (startTime + ofIndex i * interval))).
Proof.
  intros Hi. unfold sampleFrames.
  change (@List.map nat Frame) with (@fmap list _ nat Frame).
  rewrite list_lookup_fmap, lookup_seq_lt by exact Hi. reflexivity.
Qed.

Lemma sampleFrames_length qualityFn startTime interval n :
  length (sampleFrames qualityFn startTime interval n) = n.
Proof. unfold sampleFrames. rewrite List.length_map, List.length_seq. reflexivity. Qed.

(** The frame chosen by [frames.sort(...)[0]] is the earliest sampled frame
    whose score is maximal. *)
Lemma bestFrame_earliest (qualityFn : Q -> Q) (D : Q) (n : nat) :
  (0 < n)%nat ->
  exists i, (i < n)%nat
    /\ findBestThumbnailFrameWith qualityFn D n = Some (candidate D n i)
    /\ (forall j, (j < n)%nat ->
          qualityFn (candidate D n j) <= qualityFn (candidate D n i))
    /\ (forall j, (j < i)%nat ->
          qualityFn (candidate D n j) < qualityFn (candidate D n i)).
Proof.
  intros Hn. unfold findBestThumbnailFrameWith.
  set (startTime := D * 0.1).
  set (interval := (D * 0.9 - startTime) / ofIndex n).
  set (frames := sampleFrames qualityFn startTime interval n).
  assert (Hlook : forall j, (j < n)%nat ->
            frames !! j = Some (mkFrame (candidate D n j)
                                        (qualityFn (candidate D n j)))).
  { intros j Hj. apply sampleFrames_lookup. exact Hj. }
  destruct (Array_sort (fun a b => score b - score a) frames)
    as [|best rest] eqn:Hsorted.
  - exfalso. pose proof (Hlook 0%nat Hn) as H0.
    apply list_elem_of_lookup_2, list_elem_of_In in H0.
    apply (Array_sort_In (fun a b => score b - score a)) in H0.
    rewrite Hsorted in H0. exact H0.
  - apply Array_sort_head_earliest in Hsorted.
    destruct Hsorted as (pre & post & Hsplit & Hpre & Hpost).
    set (i := length pre).
    assert (Hlen : length frames = n) by apply sampleFrames_length.
    assert (Hi : (i < n)%nat).
    { rewrite <- Hlen, Hsplit, length_app. cbn. unfold i. lia. }
    assert (Hbest : best = mkFrame (candidate D n i)
                                   (qualityFn (candidate D n i))).
    { pose proof (Hlook i Hi) as H. rewrite Hsplit in H.
      rewrite lookup_app_r in H by (unfold i; lia).
      replace (i - length pre)%nat with 0%nat in H by (unfold i; lia).
      cbn in H. congruence. }
    exists i. split; [exact Hi|]. split; [rewrite Hbest; reflexivity|].
    assert (Hbefore : forall j, (j < i)%nat ->
              qualityFn (candidate D n j) < qualityFn (candidate D n i)).
    { intros j Hj. pose proof (Hlook j ltac:(lia)) as H.
      rewrite Hsplit, lookup_app_l in H by (unfold i in Hj; lia).
      rewrite List.Forall_forall in Hpre.
      apply list_elem_of_lookup_2, list_elem_of_In, Hpre in H.
      rewrite Hbest in H. exact H. }
    split; [|exact Hbefore].
    intros j Hj.
    destruct (Nat.lt_trichotomy j i) as [Hlt|[->|Hgt]].
    + apply Qlt_le_weak, Hbefore, Hlt.
    + apply Qle_refl.
    + pose proof (Hlook j Hj) as H.
      rewrite Hsplit in H. rewrite lookup_app_r in H by (unfold i in Hgt; lia).
      destruct (j - length pre)%nat as [|k] eqn:Hk; [unfold i in Hgt; lia|].
      cbn in H. rewrite List.Forall_forall in Hpost.
      apply list_elem_of_lookup_2, list_elem_of_In, Hpost in H.
      rewrite Hbest in H. exact H.
Qed.

End ScorerFacts.

Section ShippedScoring.

Lemma ofIndex_succ j : ofIndex (S j) == ofIndex j + 1.
Proof.
  unfold ofIndex. rewrite Nat2Z.inj_succ. unfold Z.succ.
  rewrite inject_Z_plus. reflexivity.
Qed.

Lemma ofIndex_lt j k : (j < k)%nat -> ofIndex j + 1 <= ofIndex k.
Proof.
  intros H. rewrite <- ofIndex_succ. apply ofIndex_le. lia.
Qed.


(** Position of a timestamp relative to the middle of the video. *)
Lemma relative_bounds D t :
  0 < D -> D * 0.1 <= t -> t <= D * 0.9 ->
  0.1 <= t / D /\ t / D <= 0.9.
Proof.
  intros HD Hlo Hhi. split.
  - apply Qle_shift_div_l; [exact HD|]. lra.
  - apply Qle_shift_div_r; [exact HD|]. lra.
Qed.

(** Inside the sampling window the penalty branch is not taken and the
    clamp does nothing: the score is [70 - 40 * |t / D - 0.5|]. *)
Lemma evaluateFrameQuality_window D t :
  0 < D -> D * 0.1 <= t -> t <= D * 0.9 ->
  evaluateFrameQuality (Some D) t == 70 - 40 * Qabs (t / D - 0.5).
Proof.
  intros HD Hlo Hhi. unfold evaluateFrameQuality.
  apply JS_lt_false in Hlo. apply JS_gt_false in Hhi.
  rewrite Hlo, Hhi. cbn [orb].
  apply JS_lt_false in Hlo. apply JS_gt_false in Hhi.
  destruct (relative_bounds D t HD Hlo Hhi) as [H1 H9].
  assert (Habs : Qabs (t / D - 0.5) <= 0.4).
  { apply Qabs_Qle_condition. split; lra. }
  pose proof (Qabs_nonneg (t / D - 0.5)) as Hnn.
  set (a := Qabs (t / D - 0.5)) in *.
  destruct (Q.min_spec 100 (50 + (20 - a * 40))) as [[? ?]|[? ?]];
  destruct (Q.max_spec 0 (Qmin 100 (50 + (20 - a * 40)))) as [[? ?]|[? ?]];
  lra.
Qed.

End ShippedScoring.

Section MiddleCandidate.

Context (D : Q) (n : nat) (HD : 0 < D) (Hn : (0 < n)%nat).








End MiddleCandidate.

(** X1. For every quality function and candidateCount > 0,
    findBestThumbnailFrame returns the earliest sampled candidate whose
    score is maximal: no candidate scores higher, and every candidate
    before it scores strictly lower. *)
Theorem X1_best_frame_earliest_maximum
    (qualityFn : Q -> Q) (D : Q) (candidateCount : nat) :
  (0 < candidateCount)%nat ->
  exists i, (i < candidateCount)%nat
    /\ findBestThumbnailFrameWith qualityFn D candidateCount
       = Some (candidate D candidateCount i)
    /\ (forall j, (j < candidateCount)%nat ->
          qualityFn (candidate D candidateCount j)
          <= qualityFn (candidate D candidateCount i))
    /\ (forall j, (j < i)%nat ->
          qualityFn (candidate D candidateCount j)
          < qualityFn (candidate D candidateCount i)).
Proof. apply bestFrame_earliest. Qed.

Lemma X1_best_frame_earliest_maximum_witness :
  exists i, (i < 10)%nat
    /\ findBestThumbnailFrame 100 (fun _ => Some 100) 10
       = Some (candidate 100 10 i)
    /\ (forall j, (j < 10)%nat ->
          evaluateFrameQuality (Some 100) (candidate 100 10 j)
          <= evaluateFrameQuality (Some 100) (candidate 100 10 i))
    /\ (forall j, (j < i)%nat ->
          evaluateFrameQuality (Some 100) (candidate 100 10 j)
          < evaluateFrameQuality (Some 100) (candidate 100 10 i)).
Proof.
  apply (X1_best_frame_earliest_maximum
           (fun t => evaluateFrameQuality (Some 100) t) 100 10).
  lia.
Defined.




(** X4. For a video of duration D > 0, every candidate that
    findBestThumbnailFrame samples is scored without the start/end
    penalty and without clamping: its score is
    [70 - 40 * |t / D - 0.5|], between 54 and 70. *)
Theorem X4_candidates_never_penalised (D : Q) (candidateCount j : nat) :
  0 < D -> (j < candidateCount)%nat ->
  let t := candidate D candidateCount j in
  evaluateFrameQuality (Some D) t == 70 - 40 * Qabs (t / D - 0.5)
  /\ 54 <= evaluateFrameQuality (Some D) t
  /\ evaluateFrameQuality (Some D) t <= 70.
Proof.
  intros HD Hj t.
  destruct (candidate_window D candidateCount j) as [Hlo Hhi];
    [lra|exact Hj|]. fold t in Hlo, Hhi.
  assert (Hscore : evaluateFrameQuality (Some D) t
                   == 70 - 40 * Qabs (t / D - 0.5))
    by (apply evaluateFrameQuality_window; lra).
  split; [exact Hscore|].
  destruct (relative_bounds D t HD) as [H1 H9]; [lra..|].
  assert (Habs : Qabs (t / D - 0.5) <= 0.4)
    by (apply Qabs_Qle_condition; split; lra).
  pose proof (Qabs_nonneg (t / D - 0.5)) as Hnn.
  split; lra.
Qed.

Lemma X4_candidates_never_penalised_witness :
  let t := candidate 100 10 0 in
  evaluateFrameQuality (Some 100) t == 70 - 40 * Qabs (t / 100 - 0.5)
  /\ 54 <= evaluateFrameQuality (Some 100) t
  /\ evaluateFrameQuality (Some 100) t <= 70.
Proof.
  apply (X4_candidates_never_penalised 100 10 0).
  - closed_Q.
  - lia.
Defined.

(** ** The silence walk *)

Section WalkFacts.

Implicit Types (sl : list SilenceInterval).

Lemma totalDuration_app (l1 l2 : list Segment) :
  totalDuration (l1 ++ l2) == totalDuration l1 + totalDuration l2.
Proof.
  unfold totalDuration.
  induction l1 as [|k l1 IH]; cbn [app foldr].
  - lra.
  - rewrite IH. lra.
Qed.

Lemma walk_positive sl : forall padding total c,
  0 <= padding ->
  Forall (fun k => 0 < seg_duration k)
         (fst (silenceLoop sl padding c)
          ++ lastSegment (snd (silenceLoop sl padding c)) total).
Proof.
  induction sl as [|s sl IH]; intros padding total c Hp.
  - cbn. unfold lastSegment. destruct (JS.lt c total) eqn:E; [|constructor].
    apply JS_lt_true in E. constructor; [cbn; lra|constructor].
  - rewrite silenceLoop_step. cbn zeta. cbn [fst snd].
    destruct (JS.gt (sil_start s) c) eqn:E; cbn [app].
    + apply JS_gt_true in E. constructor; [cbn; lra|]. apply IH, Hp.
    + apply IH, Hp.
Qed.

Lemma walk_within sl : forall padding total c lo,
  0 <= c -> 0 <= lo ->
  silencesOrdered lo sl -> silencesEndBy total sl ->
  Forall (fun k => 0 <= seg_start k /\ seg_end k <= total)
         (fst (silenceLoop sl padding c)
          ++ lastSegment (snd (silenceLoop sl padding c)) total).
Proof.
  induction sl as [|s sl IH]; intros padding total c lo Hc Hlo Hord Hend.
  - cbn. unfold lastSegment. destruct (JS.lt c total); [|constructor].
    constructor; [cbn; split; lra|constructor].
  - destruct Hord as (e & He & Hs & Hse & Hord).
    apply List.Forall_cons_iff in Hend. destruct Hend as [Hed Hend].
    rewrite He in Hed. cbn [JS.toNumber] in Hed.
    rewrite silenceLoop_step. cbn zeta. cbn [fst snd].
    rewrite He. cbn [JS.toNumber].
    assert (Hc' : 0 <= Qmax (e - padding) (sil_start s)).
    { destruct (Q.max_spec (e - padding) (sil_start s)) as [[? ?]|[? ?]];
        lra. }
    assert (He0 : 0 <= e) by lra.
    specialize (IH padding total _ e Hc' He0 Hord Hend).
    destruct (JS.gt (sil_start s) c); cbn [app]; [|exact IH].
    constructor; [|exact IH]. cbn [seg_start seg_end]. split; [exact Hc|].
    destruct (Q.min_spec (sil_start s + padding) e) as [[? ?]|[? ?]]; lra.
Qed.

Lemma walk_count sl : forall padding total c,
  (length (fst (silenceLoop sl padding c)
           ++ lastSegment (snd (silenceLoop sl padding c)) total)
   <= S (length sl))%nat.
Proof.
  induction sl as [|s sl IH]; intros padding total c.
  - cbn. unfold lastSegment. destruct (JS.lt c total); cbn; lia.
  - rewrite silenceLoop_step. cbn zeta. cbn [fst snd].
    specialize (IH padding total
                  (Qmax (JS.toNumber (sil_end s) - padding) (sil_start s))).
    destruct (JS.gt (sil_start s) c); cbn [app length] in *; lia.
Qed.

Lemma walk_total sl : forall padding total c lo,
  0 < padding -> c < lo -> lo <= total ->
  silencesOrdered lo sl -> silencesLast (2 * padding) sl ->
  silencesEndBy total sl ->
  totalDuration (fst (silenceLoop sl padding c)
                 ++ lastSegment (snd (silenceLoop sl padding c)) total)
  == total - c - silenceTotal sl + 2 * padding * ofIndex (length sl).
Proof.
  induction sl as [|s sl IH];
    intros padding total c lo Hp Hc Hlo Hord Hlast Hend.
  - cbn. unfold lastSegment.
    assert (E : JS.lt c total = true) by (apply JS_lt_true; lra).
    rewrite E. cbn. change (ofIndex 0) with 0. lra.
  - destruct Hord as (e & He & Hs & Hse & Hord).
    apply List.Forall_cons_iff in Hlast.
    destruct Hlast as [(e' & He' & Hlen) Hlast].
    rewrite He in He'. injection He' as <-.
    apply List.Forall_cons_iff in Hend. destruct Hend as [Hed Hend].
    rewrite He in Hed. cbn [JS.toNumber] in Hed.
    rewrite silenceLoop_step. cbn zeta. cbn [fst snd].
    assert (E : JS.gt (sil_start s) c = true) by (apply JS_gt_true; lra).
    rewrite E, He. cbn [JS.toNumber app].
    set (c' := Qmax (e - padding) (sil_start s)).
    assert (Hc' : c' == e - padding).
    { unfold c'. apply Q.max_l. lra. }
    assert (Hlt : c' < e) by lra.
    specialize (IH padding total c' e Hp Hlt Hed Hord Hlast Hend).
    change (totalDuration (?k :: ?l)) with (seg_duration k + totalDuration l).
    rewrite IH. cbn [seg_duration length].
    change (silenceTotal (s :: sl)) with (silenceLength s + silenceTotal sl).
    unfold silenceLength. rewrite He. cbn [JS.toNumber].
    rewrite ofIndex_succ. lra.
Qed.

Lemma silenceTotal_lower sl d :
  silencesLast d sl -> d * ofIndex (length sl) <= silenceTotal sl.
Proof.
  induction 1 as [|s sl (e & He & Hlen) _ IH].
  - cbn. change (ofIndex 0) with 0. lra.
  - change (silenceTotal (s :: sl)) with (silenceLength s + silenceTotal sl).
    unfold silenceLength. rewrite He. cbn [JS.toNumber length].
    rewrite ofIndex_succ. lra.
Qed.

End WalkFacts.

(** X5. For every silence list (open-ended intervals included), every
    total duration and every padding >= 0, each keep interval that
    removeSilence hands to ffmpeg has a strictly positive [duration]. *)
Theorem X5_keep_durations_positive
    (silences : list SilenceInterval) (total padding : Q) :
  0 <= padding ->
  Forall (fun k => 0 < seg_duration k) (audioSegments silences total padding).
Proof.
  intros Hp. rewrite audioSegments_unfold. apply walk_positive, Hp.
Qed.

Lemma X5_keep_durations_positive_witness :
  Forall (fun k => 0 < seg_duration k) (audioSegments openSilence 10 0.1).
Proof.
  apply (X5_keep_durations_positive openSilence 10 0.1). closed_Q.
Defined.

(** X6. For closed silences in time order that start at or after 0 and end
    by the total duration D, whatever the padding, the walk emits at most
    one keep interval per silence plus one, and every keep interval has
    [start >= 0] and [end <= D]. *)
Theorem X6_keep_intervals_inside_video
    (silences : list SilenceInterval) (D padding : Q) :
  silencesOrdered 0 silences -> silencesEndBy D silences ->
  let ks := audioSegments silences D padding in
  (length ks <= S (length silences))%nat
  /\ Forall (fun k => 0 <= seg_start k /\ seg_end k <= D) ks.
Proof.
  intros Hord Hend ks. subst ks. rewrite audioSegments_unfold. split.
  - apply walk_count.
  - apply (walk_within silences padding D 0 0); try assumption; lra.
Qed.

Lemma X6_keep_intervals_inside_video_witness :
  let ks := audioSegments twoSilences 20 0.1 in
  (length ks <= 3)%nat
  /\ Forall (fun k => 0 <= seg_start k /\ seg_end k <= 20) ks.
Proof.
  apply (X6_keep_intervals_inside_video twoSilences 20 0.1).
  - exists 2. repeat split; try closed_Q.
    exists 10.4. repeat split; closed_Q.
  - repeat constructor; closed_Q.
Defined.

(** X7. For a video of duration D > 0 that starts with sound, closed
    silences in time order that end by D and each last at least twice the
    padding, and padding > 0: the durations kept add up to
    [D - (sum of the silence lengths) + 2 * padding * (number of
    silences)], which is at most D. *)
Theorem X7_kept_duration
    (silences : list SilenceInterval) (D padding : Q) :
  0 < padding -> 0 < D ->
  startsWithSound silences ->
  silencesOrdered 0 silences ->
  silencesLast (2 * padding) silences ->
  silencesEndBy D silences ->
  totalDuration (audioSegments silences D padding)
  == D - silenceTotal silences
     + 2 * padding * ofIndex (length silences)
  /\ totalDuration (audioSegments silences D padding) <= D.
Proof.
  intros Hp HD Hsound Hord Hlast Hend.
  assert (Hsum : totalDuration (audioSegments silences D padding)
                 == D - silenceTotal silences
                    + 2 * padding * ofIndex (length silences)).
  { rewrite audioSegments_unfold.
    destruct silences as [|s sl].
    - rewrite (walk_total [] padding D 0 D); solve [assumption | lra].
    - cbn in Hsound.
      rewrite (walk_total (s :: sl) padding D 0 (sil_start s));
        try assumption; try lra.
      + destruct Hord as (e & He & _ & Hse & _).
        apply List.Forall_cons_iff in Hend. destruct Hend as [Hed _].
        rewrite He in Hed. cbn in Hed. lra.
      + destruct Hord as (e & He & Hs & Hse & Hrest).
        exists e. repeat split; try assumption. lra. }
  split; [exact Hsum|].
  pose proof (silenceTotal_lower silences (2 * padding) Hlast) as Hlow.
  lra.
Qed.

Lemma X7_kept_duration_witness :
  totalDuration (audioSegments shortSilence 20 0.05)
  == 20 - silenceTotal shortSilence + 2 * 0.05 * ofIndex 1
  /\ totalDuration (audioSegments shortSilence 20 0.05) <= 20.
Proof.
  apply (X7_kept_duration shortSilence 20 0.05); try closed_Q.
  - exists 10.15. repeat split; closed_Q.
  - repeat constructor. exists 10.15. split; closed_Q.
  - repeat constructor; closed_Q.
Defined.

(** X8. When every silence is closed and lasts at least the padding, every
    keep interval of the walk has [duration = end - start]. *)
Theorem X8_duration_is_end_minus_start
    (silences : list SilenceInterval) (total padding : Q) :
  silencesLast padding silences ->
  Forall (fun k => seg_duration k == seg_end k - seg_start k)
         (audioSegments silences total padding).
Proof.
  intros Hlast. rewrite audioSegments_unfold. apply walk_durations, Hlast.
Qed.

Lemma X8_duration_is_end_minus_start_witness :
  Forall (fun k => seg_duration k == seg_end k - seg_start k)
         (audioSegments twoSilences 20 0.1).
Proof.
  apply (X8_duration_is_end_minus_start twoSilences 20 0.1).
  repeat constructor.
  - exists 2. split; closed_Q.
  - exists 10.4. split; closed_Q.
Defined.

(** ** [detectSilence]: pairing the markers *)

Section PairingFacts.

Lemma pairSilences_cons s starts e ends :
  pairSilences (s :: starts) (e :: ends)
  = mkSilence s (if JS.truthy (Some e) then Some e else None)
      (if JS.truthy (if JS.truthy (Some e) then Some e else None)
       then Some (JS.toNumber (if JS.truthy (Some e) then Some e else None) - s)
       else None)
    :: pairSilences starts ends.
Proof. reflexivity. Qed.

Lemma pairSilences_lookup starts ends (i : nat) s :
  starts !! i = Some s ->
  pairSilences starts ends !! i
  = Some (match ends !! i with
          | Some e => if Qeq_bool e 0
                      then mkSilence s None None
                      else mkSilence s (Some e) (Some (e - s))
          | None => mkSilence s None None
          end).
Proof.
  intros Hs. unfold pairSilences. rewrite list_lookup_imap, Hs. cbn.
  destruct (ends !! i) as [e|]; [|reflexivity]. cbn.
  destruct (Qeq_bool e 0) eqn:E; cbn; [reflexivity|].
  rewrite E. reflexivity.
Qed.

Lemma pairSilences_interleaved starts : forall ends lo,
  0 <= lo -> interleaved lo starts ends ->
  silencesOrdered lo (pairSilences starts ends).
Proof.
  induction starts as [|s starts IH]; intros ends lo Hlo H.
  - exact I.
  - destruct ends as [|e ends]; [destruct H|].
    destruct H as (Hs & Hse & Hrest).
    rewrite pairSilences_cons.
    assert (Hnz : Qeq_bool e 0 = false).
    { destruct (Qeq_bool e 0) eqn:E; [|reflexivity].
      apply Qeq_bool_eq in E. lra. }
    cbn [JS.truthy]. rewrite Hnz. cbn [negb].
    exists e. cbn [sil_end sil_start]. repeat split; try lra.
    apply IH; [lra|exact Hrest].
Qed.

End PairingFacts.

(** X9. detectSilence returns one interval per silence_start marker, with
    that start; in every interval [end] and [duration] are null together
    and otherwise [duration = end - start]; an interval is open as soon as
    its end marker is missing (or is 0, which [||] treats as missing). *)
Theorem X9_pairing_is_consistent (silenceStarts silenceEnds : list Q) :
  let segments := pairSilences silenceStarts silenceEnds in
  length segments = length silenceStarts
  /\ Forall consistentSilence segments
  /\ (forall (i : nat) seg, segments !! i = Some seg ->
        silenceStarts !! i = Some (sil_start seg)
        /\ ((length silenceEnds <= i)%nat -> sil_end seg = None)
        /\ (forall e, silenceEnds !! i = Some e -> ~ e == 0 ->
              sil_end seg = Some e)).
Proof.
  cbn zeta. split; [|split].
  - unfold pairSilences. apply length_imap.
  - apply Forall_lookup. intros i seg Hseg.
    destruct (silenceStarts !! i) as [s|] eqn:Hs.
    + rewrite (pairSilences_lookup _ _ _ _ Hs) in Hseg.
      injection Hseg as <-. unfold consistentSilence.
      destruct (silenceEnds !! i) as [e|]; [|exact I].
      destruct (Qeq_bool e 0) eqn:E; [exact I|]. cbn.
      split; [|reflexivity]. apply Qeq_bool_neq. exact E.
    + unfold pairSilences in Hseg. rewrite list_lookup_imap, Hs in Hseg.
      discriminate.
  - intros i seg Hseg.
    destruct (silenceStarts !! i) as [s|] eqn:Hs.
    + rewrite (pairSilences_lookup _ _ _ _ Hs) in Hseg.
      injection Hseg as <-. repeat split.
      * destruct (silenceEnds !! i) as [e|]; [|reflexivity].
        destruct (Qeq_bool e 0); reflexivity.
      * intros Hge. rewrite (lookup_ge_None_2 _ _ Hge). reflexivity.
      * intros e He Hnz. rewrite He.
        destruct (Qeq_bool e 0) eqn:E; [|reflexivity].
        apply Qeq_bool_eq in E. contradiction.
    + unfold pairSilences in Hseg. rewrite list_lookup_imap, Hs in Hseg.
      discriminate.
Qed.

(** X10. When the start and end markers alternate in time (each silence
    starts at or after 0 and after the previous one ended, and ends after it
    starts), detectSilence returns closed silences in time order: the input
    that the silence-complement walk expects. *)
Theorem X10_interleaved_markers_ordered (silenceStarts silenceEnds : list Q) :
  interleaved 0 silenceStarts silenceEnds ->
  silencesOrdered 0 (pairSilences silenceStarts silenceEnds).
Proof. apply pairSilences_interleaved. lra. Qed.

Lemma X10_interleaved_markers_ordered_witness :
  silencesOrdered 0 (pairSilences [1; 10] [2; 10.4]).
Proof.
  apply (X10_interleaved_markers_ordered [1; 10] [2; 10.4]).
  repeat split; closed_Q.
Defined.

(** ** [removeSilence]: files *)

Section RemovalFacts.

Context (E : Engine).

Lemma extractAudioLoop_Returned videoPath segs : forall i fs files fs',
  extractAudioLoop E videoPath i segs fs = (Returned files, fs') ->
  files = List.map tempAudioName (seq i (length segs)).
Proof.
  induction segs as [|seg segs IH]; intros i fs files fs' H;
    cbn [extractAudioLoop] in H.
  - apply Returned_inv in H. destruct H as [<- _]. reflexivity.
  - apply bind_Returned in H. destruct H as (u & fs1 & _ & H).
    apply bind_Returned in H. destruct H as (rest & fs2 & Hrest & H).
    apply Returned_inv in H. destruct H as [<- _].
    cbn [length seq List.map]. f_equal. exact (IH _ _ _ _ Hrest).
Qed.

End RemovalFacts.


(** X12. When silences were detected and removeSilence returns (every trim
    and the concatenation succeeded), it returns the output path, and none
    of the temporary files [temp_audio_i.mp4] of the run and no
    [audio_merge_list.txt] exists afterwards. *)
Theorem X12_removal_cleans_up
    (E : Engine) (silenceSegments : list SilenceInterval)
    (videoPath outputFile : string) (padding : Q)
    (fs : gset string) (r : string) (fs' : gset string) :
  silenceSegments <> [] ->
  removeSilenceWith E silenceSegments videoPath outputFile padding fs
    = (Returned r, fs') ->
  exists D, probedDuration E videoPath fs = Some D
    /\ r = outputFile
    /\ (forall i : nat,
          (i < length (audioSegments silenceSegments D padding))%nat ->
          tempAudioName i ∉ fs')
    /\ "audio_merge_list.txt" ∉ fs'.
Proof.
  intros Hne H. unfold removeSilenceWith in H.
  destruct silenceSegments as [|s sl]; [contradiction|].
  cbn [length Nat.eqb] in H.
  apply bind_Returned in H. destruct H as (D & fs0 & HD & H).
  apply getDuration_Returned in HD. destruct HD as [HD ->].
  exists D. split; [exact HD|].
  apply bind_Returned in H. destruct H as (tempFiles & fs1 & Hfiles & H).
  apply extractAudioLoop_Returned in Hfiles.
  apply bind_Returned in H. destruct H as (u1 & fs2 & _ & H).
  apply bind_Returned in H. destruct H as (u2 & fs3 & _ & H).
  apply bind_Returned in H. destruct H as (u3 & fs4 & Hclean & H).
  rewrite unlinkAll_spec in Hclean.
  apply Returned_inv in Hclean. destruct Hclean as [_ Hfs4].
  apply bind_Returned in H. destruct H as (found & fs5 & Hfound & H).
  apply Returned_inv in Hfound. destruct Hfound as [Hfound Hfs5].
  apply bind_Returned in H. destruct H as (u4 & fs6 & Hunlink & H).
  apply Returned_inv in H. destruct H as [Hr Hfs'].
  subst fs' fs5 fs4.
  assert (Hfs6 : fs6 = (fs3 ∖ list_to_set tempFiles)
                       ∖ {["audio_merge_list.txt"]}).
  { destruct found.
    - unfold unlinkSync in Hunlink. rewrite Hfound in Hunlink.
      apply Returned_inv in Hunlink. symmetry. apply Hunlink.
    - apply bool_decide_eq_false in Hfound.
      apply Returned_inv in Hunlink. destruct Hunlink as [_ <-].
      clear - Hfound. set_solver. }
  rewrite Hfs6. split; [symmetry; exact Hr|]. split.
  - intros i Hi.
    assert (Hin : tempAudioName i ∈ tempFiles).
    { rewrite Hfiles. apply list_elem_of_In, List.in_map, List.in_seq. lia. }
    clear - Hin. set_solver.
  - set_solver.
Qed.

Lemma X12_removal_cleans_up_witness :
  match removeSilenceWith (scriptedEngine 20 [] nothingFails)
                          twoSilences "video" "out" 0.1 ∅ with
  | (Returned r, fs') =>
      r = "out" /\ (tempAudioName 0 ∉ fs') /\ (tempAudioName 1 ∉ fs')
      /\ ("audio_merge_list.txt" ∉ fs')
  | (Thrown _, _) => False
  end.
Proof.
  destruct (removeSilenceWith _ _ _ _ _ _) as [[r|e] fs'] eqn:H.
  - assert (Hne : twoSilences <> []) by (unfold twoSilences; discriminate).
    destruct (X12_removal_cleans_up _ _ _ _ _ _ _ _ Hne H)
      as (D & HD & Hr & Htemp & Hlist).
    injection HD as <-.
    split; [exact Hr|].
    split; [|split]; [apply Htemp; vm_compute; lia..|exact Hlist].
  - vm_compute in H. discriminate.
Defined.

(** ** [autoEdit]: what a run reports and what a failed run leaves *)

Section AutoEditFacts.

Context (path : NodePath) (E : Engine).

(** A sequence throws where its first part throws, or where the
    continuation throws after the first part has returned. *)
Lemma bind_Thrown {A B} (m : Run A) (k : A -> Run B) fs e fs' :
  (m ≫= k) fs = (Thrown e, fs') ->
  m fs = (Thrown e, fs')
  \/ exists a fs1, m fs = (Returned a, fs1) /\ k a fs1 = (Thrown e, fs').
Proof.
  rewrite bind_unfold. destruct (m fs) as [[a|e'] fs1]; intros H.
  - right. exists a, fs1. split; [reflexivity|exact H].
  - left. injection H as -> ->. reflexivity.
Qed.

Lemma neverThrows_fst {A} e (m : Run A) fs fs' :
  neverThrows e m -> m fs <> (Thrown e, fs').
Proof. intros Hm H. apply (Hm fs). rewrite H. reflexivity. Qed.

Lemma detectScenes_Returned videoPath threshold fs timestamps fs' :
  detectScenes E videoPath threshold fs = (Returned timestamps, fs') ->
  fs' = fs /\ videoPath ∈ fs
  /\ scenePts E videoPath threshold fs = Some timestamps.
Proof.
  unfold detectScenes. rewrite bind_unfold. unfold existsSync.
  destruct (bool_decide (videoPath ∈ fs)) eqn:Hin; cbn [negb].
  - apply bool_decide_eq_true in Hin.
    destruct (scenePts E videoPath threshold fs) as [ts|]; intros H.
    + apply Returned_inv in H. destruct H as [-> <-]. auto.
    + discriminate.
  - discriminate.
Qed.

Lemma detectScenes_keeps_files videoPath threshold fs :
  snd (detectScenes E videoPath threshold fs) = fs.
Proof.
  unfold detectScenes. rewrite bind_unfold. unfold existsSync.
  destruct (bool_decide (videoPath ∈ fs)); cbn [negb]; [|reflexivity].
  destruct (scenePts E videoPath threshold fs); reflexivity.
Qed.

Lemma getDuration_keeps_files videoPath fs :
  snd (getDuration E videoPath fs) = fs.
Proof.
  unfold getDuration. destruct (probedDuration E videoPath fs); reflexivity.
Qed.

Lemma neverThrows_getDuration videoPath :
  neverThrows NoValidSegments (getDuration E videoPath).
Proof.
  intros fs. unfold getDuration.
  destruct (probedDuration E videoPath fs); discriminate.
Qed.

Lemma neverThrows_detectScenes videoPath threshold :
  neverThrows NoValidSegments (detectScenes E videoPath threshold).
Proof.
  intros fs. unfold detectScenes. rewrite bind_unfold. unfold existsSync.
  destruct (bool_decide (videoPath ∈ fs)); cbn [negb]; [|discriminate].
  destruct (scenePts E videoPath threshold fs); discriminate.
Qed.

Lemma neverThrows_splitLoop videoPath outputDir baseName bounds : forall i,
  neverThrows NoValidSegments
    (splitLoop path E videoPath outputDir baseName i bounds).
Proof.
  induction bounds as [|a bounds IH]; intros i.
  - apply neverThrows_ret.
  - destruct bounds as [|b bounds]; [apply neverThrows_ret|].
    cbn [splitLoop].
    apply neverThrows_bind; [apply neverThrows_exec|]. intros _.
    apply neverThrows_bind; [apply IH|]. intros outputs.
    apply neverThrows_ret.
Qed.

Lemma neverThrows_splitByScenes videoPath timestamps outputDir :
  neverThrows NoValidSegments
    (splitByScenes path E videoPath timestamps outputDir).
Proof.
  unfold splitByScenes.
  apply neverThrows_bind; [apply neverThrows_existsSync|]. intros found.
  apply neverThrows_bind.
  { destruct (negb found); [intros fs; discriminate|apply neverThrows_ret]. }
  intros _.
  apply neverThrows_bind; [apply neverThrows_getDuration|]. intros duration.
  apply neverThrows_splitLoop.
Qed.

(** The only place where [mergeScenes] throws "No valid segments" is its
    check, before any file is touched. *)
Lemma mergeScenes_NoValidSegments videoPath timestamps minDuration
    outputFile fs fs' :
  mergeScenes E videoPath timestamps minDuration outputFile fs
    = (Thrown NoValidSegments, fs') ->
  fs' = fs
  /\ exists D, probedDuration E videoPath fs = Some D
       /\ validSegments minDuration (allTimestamps timestamps D) = [].
Proof.
  unfold mergeScenes. intros H.
  apply bind_Thrown in H. destruct H as [H|(D & fs0 & HD & H)].
  - exfalso. revert H. apply neverThrows_fst, neverThrows_getDuration.
  - apply getDuration_Returned in HD. destruct HD as [HD ->].
    destruct (validSegments minDuration (allTimestamps timestamps D))
      as [|seg valid] eqn:Hvalid.
    + cbn in H. unfold throw in H. injection H as <-.
      split; [reflexivity|]. exists D. split; [exact HD|exact Hvalid].
    + exfalso. cbn [length Nat.eqb] in H. revert H.
      apply neverThrows_fst.
      apply neverThrows_bind; [apply neverThrows_extractLoop|].
      intros tempFiles.
      apply neverThrows_bind; [apply neverThrows_writeFileSync|]. intros _.
      apply neverThrows_bind; [apply neverThrows_exec|]. intros _.
      apply neverThrows_bind; [apply neverThrows_unlinkAll|]. intros _.
      apply neverThrows_bind; [apply neverThrows_existsSync|]. intros found.
      apply neverThrows_bind; [apply neverThrows_guardedUnlink|]. intros _.
      apply neverThrows_ret.
Qed.

End AutoEditFacts.

Lemma mergeScenes_returns_outputFile
    (E : Engine) videoPath timestamps minDuration outputFile fs r fs' :
  mergeScenes E videoPath timestamps minDuration outputFile fs
    = (Returned r, fs') ->
  r = outputFile.
Proof.
  unfold mergeScenes. intros H.
  apply bind_Returned in H. destruct H as (D & fs0 & _ & H).
  destruct (length (validSegments minDuration (allTimestamps timestamps D))
            =? 0)%nat; [discriminate|].
  do 6 (apply bind_Returned in H; destruct H as (? & ? & _ & H)).
  apply Returned_inv in H. symmetry. apply H.
Qed.

(** X13. When autoEdit returns, the video exists, [originalDuration] is
    the duration that ffprobe printed, [scenesDetected] is the length of
    [sceneTimestamps], the clips are in "auto_scenes" and the merged file is
    "auto_merged.mp4"; [sceneTimestamps] is what the detector found at the
    given threshold, unless that was nothing, in which case it is what the
    detector found at threshold 0.15. *)
Theorem X13_autoEdit_report
    (path : NodePath) (E : Engine) (videoPath : string)
    (minDuration threshold : Q) (fs : gset string)
    (r : AutoEditResult) (fs' : gset string) :
  autoEdit path E videoPath minDuration threshold fs = (Returned r, fs') ->
  videoPath ∈ fs
  /\ probedDuration E videoPath fs = Some (originalDuration r)
  /\ scenesDetected r = length (sceneTimestamps r)
  /\ clipsPath r = "auto_scenes"
  /\ mergedFile r = "auto_merged.mp4"
  /\ exists first, scenePts E videoPath threshold fs = Some first
       /\ (first <> [] -> sceneTimestamps r = first)
       /\ (first = [] ->
           scenePts E videoPath 0.15 fs = Some (sceneTimestamps r)).
Proof.
  unfold autoEdit. intros H.
  apply bind_Returned in H. destruct H as (duration & fs1 & Hdur & H).
  apply getDuration_Returned in Hdur. destruct Hdur as [Hdur ->].
  apply bind_Returned in H. destruct H as (first & fs2 & Hfirst & H).
  apply detectScenes_Returned in Hfirst.
  destruct Hfirst as (-> & Hin & Hfirst).
  apply bind_Returned in H. destruct H as (timestamps & fs3 & Hts & H).
  apply bind_Returned in H. destruct H as (clips & fs4 & _ & H).
  apply bind_Returned in H. destruct H as (finalFile & fs5 & Hmerge & H).
  apply mergeScenes_returns_outputFile in Hmerge.
  apply Returned_inv in H. destruct H as [<- _].
  cbn [originalDuration scenesDetected clipsPath mergedFile sceneTimestamps].
  repeat split; try assumption; try reflexivity.
  exists first. split; [exact Hfirst|].
  destruct first as [|t first]; cbn [length Nat.eqb] in Hts.
  - apply detectScenes_Returned in Hts. destruct Hts as (_ & _ & Hts).
    split; [intros Hne; contradiction|intros _; exact Hts].
  - apply Returned_inv in Hts. destruct Hts as [<- _].
    split; [reflexivity|discriminate].
Qed.

Lemma X13_autoEdit_report_witness :
  match autoEdit posixPath (scriptedEngine 35.05 [15.2; 30.0] nothingFails)
                 "video" 3 0.3 {["video"]} with
  | (Returned r, _) =>
      sceneTimestamps r = [15.2; 30.0] /\ mergedFile r = "auto_merged.mp4"
  | (Thrown _, _) => False
  end.
Proof.
  destruct (autoEdit _ _ _ _ _ _) as [[r|e] fs'] eqn:H.
  - destruct (X13_autoEdit_report _ _ _ _ _ _ _ _ H)
      as (_ & _ & _ & _ & Hmerged & first & Hfirst & Hsame & _).
    injection Hfirst as <-.
    split; [apply Hsame; discriminate|exact Hmerged].
  - vm_compute in H. discriminate.
Defined.

(** X14. For a video file that does not exist, autoEdit creates nothing: it
    throws "Video file not found" when ffprobe still printed a duration, or
    the failure of ffprobe otherwise, and leaves the file system as it
    was. *)
Theorem X14_autoEdit_missing_video
    (path : NodePath) (E : Engine) (videoPath : string)
    (minDuration threshold : Q) (fs : gset string) :
  videoPath ∉ fs ->
  autoEdit path E videoPath minDuration threshold fs
  = (Thrown (match probedDuration E videoPath fs with
             | Some _ => VideoNotFound videoPath
             | None => CommandFailed (ProbeDuration videoPath)
             end), fs).
Proof.
  intros Hnot. unfold autoEdit. rewrite bind_unfold. unfold getDuration.
  destruct (probedDuration E videoPath fs) as [D|]; [|reflexivity].
  rewrite bind_unfold. unfold detectScenes. rewrite bind_unfold.
  unfold existsSync. rewrite (bool_decide_eq_false_2 _ Hnot).
  reflexivity.
Qed.

Lemma X14_autoEdit_missing_video_witness :
  autoEdit posixPath (scriptedEngine 30 [10] nothingFails) "video" 3 0.3 ∅
  = (Thrown (VideoNotFound "video"), ∅).
Proof.
  apply (X14_autoEdit_missing_video posixPath
           (scriptedEngine 30 [10] nothingFails) "video" 3 0.3 ∅).
  set_solver.
Defined.

(** X15. When autoEdit fails with "No valid segments found after
    filtering", the split step has already run to its end: the file system
    left behind is exactly the one that splitByScenes produced from the
    initial one, with one clip per segment, and nothing is removed. *)
Theorem X15_autoEdit_filter_failure_keeps_clips
    (path : NodePath) (E : Engine) (videoPath : string)
    (minDuration threshold : Q) (fs fs' : gset string) :
  autoEdit path E videoPath minDuration threshold fs
    = (Thrown NoValidSegments, fs') ->
  exists timestamps clips,
    splitByScenes path E videoPath timestamps "auto_scenes" fs
      = (Returned clips, fs')
    /\ length clips = S (length timestamps).
Proof.
  unfold autoEdit. intros H.
  apply bind_Thrown in H. destruct H as [H|(duration & fs1 & Hdur & H)].
  { exfalso. revert H. apply neverThrows_fst, neverThrows_getDuration. }
  apply getDuration_Returned in Hdur. destruct Hdur as [_ ->].
  apply bind_Thrown in H. destruct H as [H|(first & fs2 & Hfirst & H)].
  { exfalso. revert H. apply neverThrows_fst, neverThrows_detectScenes. }
  apply detectScenes_Returned in Hfirst. destruct Hfirst as (-> & _ & _).
  apply bind_Thrown in H. destruct H as [H|(timestamps & fs3 & Hts & H)].
  { exfalso. revert H. apply neverThrows_fst.
    destruct (length first =? 0)%nat;
      [apply neverThrows_detectScenes|apply neverThrows_ret]. }
  assert (Hfs3 : fs3 = fs).
  { destruct (length first =? 0)%nat.
    - apply detectScenes_Returned in Hts. apply Hts.
    - apply Returned_inv in Hts. symmetry. apply Hts. }
  subst fs3.
  apply bind_Thrown in H. destruct H as [H|(clips & fs4 & Hclips & H)].
  { exfalso. revert H. apply neverThrows_fst, neverThrows_splitByScenes. }
  apply bind_Thrown in H. destruct H as [H|(finalFile & fs5 & _ & H)];
    [|discriminate].
  apply mergeScenes_NoValidSegments in H. destruct H as [-> _].
  exists timestamps, clips. split; [exact Hclips|].
  exact (splitByScenes_length E path _ _ _ _ _ _ Hclips).
Qed.

Lemma X15_autoEdit_filter_failure_keeps_clips_witness :
  exists timestamps clips,
    splitByScenes posixPath (scriptedEngine 30 [10] nothingFails)
                  "video" timestamps "auto_scenes" {["video"]}
      = (Returned clips,
         snd (autoEdit posixPath (scriptedEngine 30 [10] nothingFails)
                       "video" 25 0.3 {["video"]}))
    /\ length clips = S (length timestamps).
Proof.
  apply (X15_autoEdit_filter_failure_keeps_clips posixPath
           (scriptedEngine 30 [10] nothingFails) "video" 25 0.3).
  destruct (autoEdit _ _ _ _ _ _) as [r fs'] eqn:H. cbn [snd].
  f_equal. vm_compute in H. injection H as <- _. reflexivity.
Defined.

(** ** Storyboards *)

Section StoryboardFacts.

Lemma storyboardTimestamps_lookup D n (i : nat) :
  (i < n)%nat ->
  storyboardTimestamps D n !! i
  = Some (D * ((ofIndex i + 0.5) / ofIndex n)).
Proof.
  intros Hi. unfold storyboardTimestamps.
  change (@List.map nat Q) with (@fmap list _ nat Q).
  rewrite list_lookup_fmap, lookup_seq_lt by exact Hi. reflexivity.
Qed.

Lemma storyboardTimestamps_length D n :
  length (storyboardTimestamps D n) = n.
Proof.
  unfold storyboardTimestamps.
  rewrite List.length_map, List.length_seq. reflexivity.
Qed.

Lemma storyboardTimestamps_lookup_inv D n (i : nat) t :
  storyboardTimestamps D n !! i = Some t ->
  (i < n)%nat /\ t = D * ((ofIndex i + 0.5) / ofIndex n).
Proof.
  intros H.
  assert (Hi : (i < n)%nat).
  { apply lookup_lt_Some in H. rewrite storyboardTimestamps_length in H.
    exact H. }
  rewrite (storyboardTimestamps_lookup D n i Hi) in H.
  injection H as <-. split; [exact Hi|reflexivity].
Qed.

(** The sample as a number of half slices. *)
Lemma sample_as_fraction D n (i : nat) :
  (0 < n)%nat ->
  D * ((ofIndex i + 0.5) / ofIndex n)
  == (D * / ofIndex n) * (ofIndex i + 0.5).
Proof.
  intros Hn. field. intros H0.
  pose proof (ofIndex_pos n Hn) as Hp. rewrite H0 in Hp. lra.
Qed.

Lemma slice_width_pos D n : 0 < D -> (0 < n)%nat -> 0 < D * / ofIndex n.
Proof.
  intros HD Hn. apply Qmult_lt_0_compat; [exact HD|].
  apply Qinv_lt_0_compat, ofIndex_pos, Hn.
Qed.

End StoryboardFacts.

(** X16. For a video of duration D > 0 cut into n > 0 frames, the
    storyboard samples are n times; sample [i] is the middle of the i-th of
    n equal slices of the video, so every sample lies strictly inside
    (0, D) and the samples are strictly increasing. *)
Theorem X16_storyboard_samples (D : Q) (n : nat) :
  0 < D -> (0 < n)%nat ->
  length (storyboardTimestamps D n) = n
  /\ (forall (i : nat) t, storyboardTimestamps D n !! i = Some t ->
        t == (sliceStart D n i + sliceEnd D n i) / 2
        /\ 0 < t /\ t < D)
  /\ (forall (i j : nat) ti tj,
        (i < j)%nat ->
        storyboardTimestamps D n !! i = Some ti ->
        storyboardTimestamps D n !! j = Some tj ->
        ti < tj).
Proof.
  intros HD Hn.
  pose proof (slice_width_pos D n HD Hn) as Hw.
  assert (Hunit : (D * / ofIndex n) * ofIndex n == D).
  { field. intros H0. pose proof (ofIndex_pos n Hn) as Hp.
    rewrite H0 in Hp. lra. }
  split; [apply storyboardTimestamps_length|]. split.
  - intros i t Ht. apply storyboardTimestamps_lookup_inv in Ht.
    destruct Ht as [Hi ->]. rewrite (sample_as_fraction D n i Hn).
    set (w := D * / ofIndex n) in *.
    pose proof (ofIndex_nonneg i) as Hi0.
    pose proof (ofIndex_lt i n Hi) as Hin.
    assert (Hmid : (sliceStart D n i + sliceEnd D n i) / 2
                   == w * (ofIndex i + 0.5)).
    { unfold sliceStart, sliceEnd, w. rewrite ofIndex_succ. field.
      intros H0. pose proof (ofIndex_pos n Hn) as Hp.
      rewrite H0 in Hp. lra. }
    split; [symmetry; exact Hmid|]. split.
    + apply Qmult_lt_0_compat; lra.
    + rewrite <- Hunit.
      assert (H : w * (ofIndex i + 0.5) < w * ofIndex n)
        by (apply Qmult_lt_l; lra).
      exact H.
  - intros i j ti tj Hij Hti Htj.
    apply storyboardTimestamps_lookup_inv in Hti, Htj.
    destruct Hti as [_ ->]. destruct Htj as [_ ->].
    rewrite !(sample_as_fraction D n _ Hn).
    pose proof (ofIndex_lt i j Hij) as Hstep.
    apply Qmult_lt_l; lra.
Qed.

Lemma X16_storyboard_samples_witness :
  length (storyboardTimestamps 90 9) = 9%nat
  /\ (forall (i : nat) t, storyboardTimestamps 90 9 !! i = Some t ->
        t == (sliceStart 90 9 i + sliceEnd 90 9 i) / 2
        /\ 0 < t /\ t < 90)
  /\ (forall (i j : nat) ti tj,
        (i < j)%nat ->
        storyboardTimestamps 90 9 !! i = Some ti ->
        storyboardTimestamps 90 9 !! j = Some tj ->
        ti < tj).
Proof.
  apply (X16_storyboard_samples 90 9).
  - closed_Q.
  - lia.
Defined.

Section LabelFacts.

Lemma Qfloor_unique x k :
  inject_Z k <= x -> x < inject_Z (k + 1) -> Qfloor x = k.
Proof.
  intros Hle Hlt. apply Z.le_antisymm.
  - assert (H : (Qfloor x < k + 1)%Z).
    { rewrite Zlt_Qlt. eapply Qle_lt_trans; [apply Qfloor_le|exact Hlt]. }
    lia.
  - assert (H : (k < Qfloor x + 1)%Z).
    { rewrite Zlt_Qlt. eapply Qle_lt_trans; [exact Hle|apply Qlt_floor]. }
    lia.
Qed.

Lemma js_trunc_nonneg x : 0 <= x -> js_trunc x = Qfloor x.
Proof.
  intros Hx. unfold js_trunc.
  destruct (Qle_bool 0 x) eqn:E; [reflexivity|].
  apply Qle_bool_iff in Hx. congruence.
Qed.

(** For a time that is not negative, [t % 60] is [t] minus the full
    minutes. *)
Lemma js_rem_minutes t :
  0 <= t -> js_rem t 60 == t - 60 * inject_Z (labelMinutes t).
Proof.
  intros Ht. unfold js_rem, labelMinutes.
  rewrite js_trunc_nonneg; [reflexivity|].
  apply Qle_shift_div_l; lra.
Qed.

Lemma minutes_bounds t :
  60 * inject_Z (labelMinutes t) <= t
  /\ t < 60 * inject_Z (labelMinutes t) + 60.
Proof.
  unfold labelMinutes.
  pose proof (Qfloor_le (t / 60)) as Hlo.
  pose proof (Qlt_floor (t / 60)) as Hhi.
  rewrite inject_Z_plus in Hhi. change (inject_Z 1) with 1 in Hhi.
  assert (Ht : t == 60 * (t / 60)) by (field).
  split; lra.
Qed.

Lemma two_digit_seconds : forall k : nat,
  (k < 60)%nat -> String.length (padStart0 2 (pretty (Z.of_nat k))) = 2%nat.
Proof.
  assert (H : forallb
                (fun k => String.length (padStart0 2 (pretty (Z.of_nat k)))
                          =? 2)%nat
                (seq 0 60) = true) by (vm_compute; reflexivity).
  intros k Hk. rewrite List.forallb_forall in H.
  apply Nat.eqb_eq, H, List.in_seq. lia.
Qed.

End LabelFacts.

(** X17. For a timestamp t >= 0 the label of a timeline frame is built
    from [minutes >= 0] and [0 <= seconds <= 59] with
    [60 * minutes + seconds = floor(t)], and the seconds are printed with
    exactly two characters. *)
Theorem X17_time_label (t : Q) :
  0 <= t ->
  (0 <= labelMinutes t)%Z
  /\ (0 <= labelSeconds t < 60)%Z
  /\ (60 * labelMinutes t + labelSeconds t = Qfloor t)%Z
  /\ String.length (padStart0 2 (pretty (labelSeconds t))) = 2%nat.
Proof.
  intros Ht.
  destruct (minutes_bounds t) as [Hlo Hhi].
  pose proof (js_rem_minutes t Ht) as Hrem.
  assert (Hm : (0 <= labelMinutes t)%Z).
  { unfold labelMinutes. rewrite <- (Qfloor_Z 0).
    apply Qfloor_resp_le. change (inject_Z 0) with 0.
    apply Qle_shift_div_l; lra. }
  assert (Hs : (0 <= labelSeconds t < 60)%Z).
  { unfold labelSeconds. split.
    - rewrite <- (Qfloor_Z 0). apply Qfloor_resp_le.
      change (inject_Z 0) with 0. lra.
    - assert (H : (Qfloor (js_rem t 60) < 60)%Z); [|lia].
      rewrite Zlt_Qlt. eapply Qle_lt_trans; [apply Qfloor_le|].
      change (inject_Z 60) with 60. lra. }
  split; [exact Hm|]. split; [exact Hs|]. split.
  - symmetry. apply Qfloor_unique.
    + rewrite inject_Z_plus, inject_Z_mult. change (inject_Z 60) with 60.
      pose proof (Qfloor_le (js_rem t 60)) as Hfl.
      fold (labelSeconds t) in Hfl. lra.
    + rewrite !inject_Z_plus, inject_Z_mult. change (inject_Z 60) with 60.
      change (inject_Z 1) with 1.
      pose proof (Qlt_floor (js_rem t 60)) as Hfl.
      fold (labelSeconds t) in Hfl.
      rewrite inject_Z_plus in Hfl. change (inject_Z 1) with 1 in Hfl. lra.
  - rewrite <- (Z2Nat.id (labelSeconds t)) by lia.
    apply two_digit_seconds. lia.
Qed.

Lemma X17_time_label_witness :
  (0 <= labelMinutes 125.5)%Z
  /\ (0 <= labelSeconds 125.5 < 60)%Z
  /\ (60 * labelMinutes 125.5 + labelSeconds 125.5 = Qfloor 125.5)%Z
  /\ String.length (padStart0 2 (pretty (labelSeconds 125.5))) = 2%nat.
Proof. apply (X17_time_label 125.5). closed_Q. Defined.

Section GridFacts.

Lemma ceilSqrt_spec count :
  (0 < count)%nat ->
  (1 <= ceilSqrt count
   /\ (ceilSqrt count - 1) * (ceilSqrt count - 1) < count
   /\ count <= ceilSqrt count * ceilSqrt count)%nat.
Proof.
  intros Hc. unfold ceilSqrt.
  pose proof (Nat.sqrt_specif count) as [Hlo Hhi].
  destruct (Nat.sqrt count * Nat.sqrt count =? count)%nat eqn:E.
  - apply Nat.eqb_eq in E.
    assert (Hr : (1 <= Nat.sqrt count)%nat).
    { destruct (Nat.sqrt count); [cbn in E; lia|lia]. }
    repeat split; [exact Hr| |lia].
    assert (H : (Nat.sqrt count - 1 < Nat.sqrt count)%nat) by lia. nia.
  - apply Nat.eqb_neq in E. repeat split; [lia| |lia].
    replace (S (Nat.sqrt count) - 1)%nat with (Nat.sqrt count) by lia. lia.
Qed.

End GridFacts.

(** X18. For count > 0 frames the timeline grid has [cols] columns and
    [rows] rows with [(cols - 1)^2 < count <= cols^2] (the least number of
    columns of a square that holds every frame), [rows * cols >= count]
    (every frame has a cell), [(rows - 1) * cols < count] (no row is
    empty) and [1 <= rows <= cols]. *)
Theorem X18_timeline_grid (count : nat) :
  (0 < count)%nat ->
  let cols := Z.of_nat (gridCols count) in
  let rows := gridRows count in
  let n := Z.of_nat count in
  ((cols - 1) * (cols - 1) < n /\ n <= cols * cols
   /\ n <= rows * cols /\ (rows - 1) * cols < n
   /\ 1 <= rows /\ rows <= cols)%Z.
Proof.
  intros Hc cols rows n.
  destruct (ceilSqrt_spec count Hc) as (Hc1 & Hlo & Hhi).
  fold (gridCols count) in Hc1, Hlo, Hhi.
  assert (Hcols : (1 <= cols)%Z) by (unfold cols; lia).
  assert (HcolsQ : 0 < inject_Z cols).
  { change 0 with (inject_Z 0). rewrite <- Zlt_Qlt. lia. }
  assert (HnQ : 0 < inject_Z n).
  { change 0 with (inject_Z 0). rewrite <- Zlt_Qlt. unfold n. lia. }
  assert (Hratio : ofIndex count / ofIndex (gridCols count)
                   == inject_Z n / inject_Z cols) by reflexivity.
  assert (Hn_eq : inject_Z n / inject_Z cols * inject_Z cols == inject_Z n)
    by (field; lra).
  assert (Hup : inject_Z n <= inject_Z rows * inject_Z cols).
  { pose proof (Qle_ceiling (ofIndex count / ofIndex (gridCols count))) as H.
    fold (gridRows count) in H. fold rows in H. rewrite Hratio in H.
    rewrite <- Hn_eq. apply Qmult_le_compat_r; [exact H|lra]. }
  assert (Hdown : inject_Z (rows - 1) * inject_Z cols < inject_Z n).
  { pose proof (Qceiling_lt (ofIndex count / ofIndex (gridCols count))) as H.
    fold (gridRows count) in H. fold rows in H. rewrite Hratio in H.
    rewrite <- Hn_eq. apply Qmult_lt_compat_r; [exact HcolsQ|exact H]. }
  rewrite <- inject_Z_mult, <- Zle_Qle in Hup.
  rewrite <- inject_Z_mult, <- Zlt_Qlt in Hdown.
  assert (Hsq1 : ((cols - 1) * (cols - 1) < n)%Z).
  { unfold cols, n.
    replace (Z.of_nat (gridCols count) - 1)%Z
      with (Z.of_nat (gridCols count - 1)) by lia.
    rewrite <- Nat2Z.inj_mul. lia. }
  assert (Hsq2 : (n <= cols * cols)%Z).
  { unfold cols, n. rewrite <- Nat2Z.inj_mul. lia. }
  repeat split; try assumption; nia.
Qed.

Lemma X18_timeline_grid_witness :
  let cols := Z.of_nat (gridCols 10) in
  let rows := gridRows 10 in
  let n := Z.of_nat 10 in
  ((cols - 1) * (cols - 1) < n /\ n <= cols * cols
   /\ n <= rows * cols /\ (rows - 1) * cols < n
   /\ 1 <= rows /\ rows <= cols)%Z.
Proof. apply (X18_timeline_grid 10). lia. Defined.

(** ** Locating ffmpeg *)

Section FindFacts.

Lemma firstInstalled_None pairs (fs : gset string) :
  firstInstalled pairs fs = None <->
  (forall pq, In pq pairs -> pq.1 ∉ fs).
Proof.
  induction pairs as [|[p q] pairs IH]; cbn [firstInstalled].
  - split; [intros _ pq []|reflexivity].
  - destruct (bool_decide (p ∈ fs)) eqn:Hp.
    + apply bool_decide_eq_true in Hp. split; [discriminate|].
      intros H. exfalso. apply (H (p, q)); [left; reflexivity|exact Hp].
    + apply bool_decide_eq_false in Hp. rewrite IH. split.
      * intros H pq [<-|Hin]; [exact Hp|apply H, Hin].
      * intros H pq Hin. apply H. right. exact Hin.
Qed.

Lemma firstInstalled_Some pairs (fs : gset string) found :
  firstInstalled pairs fs = Some found ->
  exists i : nat,
    pairs !! i = Some (FFMPEG_PATH found, FFPROBE_PATH found)
    /\ FFMPEG_PATH found ∈ fs
    /\ (forall (j : nat) pq, (j < i)%nat -> pairs !! j = Some pq -> pq.1 ∉ fs).
Proof.
  induction pairs as [|[p q] pairs IH]; cbn [firstInstalled]; [discriminate|].
  destruct (bool_decide (p ∈ fs)) eqn:Hp.
  - apply bool_decide_eq_true in Hp. intros H. injection H as <-.
    exists 0%nat. cbn. repeat split; [exact Hp|]. intros j pq Hj. lia.
  - apply bool_decide_eq_false in Hp. intros H.
    destruct (IH H) as (i & Hi & Hin & Hmin).
    exists (S i). repeat split; [exact Hi|exact Hin|].
    intros [|j] pq Hj Hpq; cbn in Hpq.
    + injection Hpq as <-. exact Hp.
    + apply (Hmin j); [lia|exact Hpq].
Qed.

Lemma known_pair (i : nat) p q :
  List.combine possiblePaths possibleProbes !! i = Some (p, q) <->
  possiblePaths !! i = Some p /\ possibleProbes !! i = Some q.
Proof.
  unfold possiblePaths, possibleProbes. cbn [List.combine].
  destruct i as [|[|[|i]]]; cbn; split.
  all: try (intros H; injection H as <- <-; split; reflexivity).
  all: try (intros [H1 H2]; injection H1 as <-; injection H2 as <-;
            reflexivity).
  all: try discriminate.
  all: intros [H _]; discriminate.
Qed.

End FindFacts.

(** X19. findFFmpeg returns true exactly when one of the three known
    ffmpeg paths exists or [ffmpeg -version] runs.  When a known path
    exists, the first one in the list that exists becomes [FFMPEG_PATH] and
    the ffprobe path of the same position becomes [FFPROBE_PATH] (whether or
    not that file exists); when none exists the two variables keep their
    values. *)
Theorem X19_findFFmpeg (onPath : bool) (fs : gset string) (paths : ToolPaths) :
  let ok := fst (findFFmpeg onPath fs paths) in
  let paths' := snd (findFFmpeg onPath fs paths) in
  (ok = true <-> (exists p, In p possiblePaths /\ p ∈ fs) \/ onPath = true)
  /\ ((forall p, In p possiblePaths -> p ∉ fs) -> paths' = paths)
  /\ (forall (i : nat) p,
        possiblePaths !! i = Some p -> p ∈ fs ->
        (forall (j : nat) q, (j < i)%nat -> possiblePaths !! j = Some q ->
                             q ∉ fs) ->
        FFMPEG_PATH paths' = p
        /\ possibleProbes !! i = Some (FFPROBE_PATH paths')).
Proof.
  cbn zeta. unfold findFFmpeg.
  set (pairs := List.combine possiblePaths possibleProbes).
  assert (Hfst : forall pq, In pq pairs -> In pq.1 possiblePaths).
  { intros [p q] Hin. apply list_elem_of_In, list_elem_of_lookup in Hin.
    destruct Hin as [i Hi]. apply known_pair in Hi.
    apply list_elem_of_In. eapply list_elem_of_lookup_2. apply Hi. }
  assert (Hsnd : forall p, In p possiblePaths ->
                   exists q, In (p, q) pairs).
  { intros p Hin. apply list_elem_of_In, list_elem_of_lookup in Hin.
    destruct Hin as [i Hi].
    assert (Hq : exists q, possibleProbes !! i = Some q).
    { apply lookup_lt_Some in Hi. apply lookup_lt_is_Some_2.
      unfold possiblePaths in Hi. unfold possibleProbes. cbn in *. lia. }
    destruct Hq as [q Hq]. exists q.
    apply list_elem_of_In. eapply list_elem_of_lookup_2.
    apply known_pair. split; eassumption. }
  destruct (firstInstalled pairs fs) as [found|] eqn:Hfound;
    cbn [fst snd].
  - apply firstInstalled_Some in Hfound.
    destruct Hfound as (k & Hk & Hin & Hmin).
    apply known_pair in Hk. destruct Hk as [Hk1 Hk2].
    split; [|split].
    + split; [intros _|reflexivity]. left.
      exists (FFMPEG_PATH found). split; [|exact Hin].
      apply list_elem_of_In. eapply list_elem_of_lookup_2. exact Hk1.
    + intros Hnone. exfalso. apply (Hnone (FFMPEG_PATH found)); [|exact Hin].
      apply list_elem_of_In. eapply list_elem_of_lookup_2. exact Hk1.
    + intros i p Hp Hpin Hfirst.
      destruct (Nat.lt_trichotomy i k) as [Hlt|[->|Hgt]].
      * exfalso.
        assert (Hq : exists q, possibleProbes !! i = Some q).
        { apply lookup_lt_Some in Hp. apply lookup_lt_is_Some_2.
          unfold possiblePaths in Hp. unfold possibleProbes. cbn in *. lia. }
        destruct Hq as [q Hq].
        apply (Hmin i (p, q) Hlt); [|exact Hpin].
        apply known_pair. split; assumption.
      * split; [congruence|exact Hk2].
      * exfalso. exact (Hfirst k _ Hgt Hk1 Hin).
  - rewrite firstInstalled_None in Hfound. split; [|split].
    + split; [intros H; right; exact H|].
      intros [(p & Hp & Hin)|Hon]; [|exact Hon]. exfalso.
      destruct (Hsnd p Hp) as [q Hq]. exact (Hfound (p, q) Hq Hin).
    + reflexivity.
    + intros i p Hp Hpin _. exfalso.
      apply list_elem_of_lookup_2, list_elem_of_In in Hp.
      destruct (Hsnd p Hp) as [q Hq]. exact (Hfound (p, q) Hq Hpin).
Qed.

Lemma X19_findFFmpeg_witness :
  let fs : gset string := {["C:\ffmpeg\bin\ffmpeg.exe"]} in
  fst (findFFmpeg false fs defaultPaths) = true
  /\ FFMPEG_PATH (snd (findFFmpeg false fs defaultPaths))
     = "C:\ffmpeg\bin\ffmpeg.exe"
  /\ possibleProbes !! 1%nat
     = Some (FFPROBE_PATH (snd (findFFmpeg false fs defaultPaths))).
Proof.
  intros fs.
  destruct (X19_findFFmpeg false fs defaultPaths) as (Hok & _ & Hfirst).
  split.
  - apply Hok. left. exists "C:\ffmpeg\bin\ffmpeg.exe".
    split; [cbn; tauto|set_solver].
  - apply (Hfirst 1%nat); [reflexivity|set_solver|].
    intros [|j] q Hj Hq; [|lia]. injection Hq as <-. set_solver.
Defined.

(** ** The output of ffprobe *)

Section ParseFacts.

Lemma append_empty (s : string) : "" +:+ s = s.
Proof. reflexivity. Qed.

Lemma append_String c (a s : string) :
  String c a +:+ s = String c (a +:+ s).
Proof. reflexivity. Qed.

Lemma splitOn_plain sep s :
  includesChar sep s = false -> splitOn sep s = [s].
Proof.
  induction s as [|c s IH]; cbn [includesChar splitOn]; [reflexivity|].
  destruct (Ascii.eqb c sep); cbn [orb]; [discriminate|].
  intros H. rewrite (IH H). reflexivity.
Qed.

Lemma splitOn_app sep a rest :
  includesChar sep a = false ->
  splitOn sep (a +:+ String sep rest) = a :: splitOn sep rest.
Proof.
  induction a as [|c a IH];
    rewrite ?append_empty, ?append_String; cbn [includesChar splitOn].
  - intros _. rewrite Ascii.eqb_refl. reflexivity.
  - destruct (Ascii.eqb c sep); cbn [orb]; [discriminate|].
    intros H. rewrite (IH H). reflexivity.
Qed.

Lemma includesChar_app c a b :
  includesChar c (a +:+ b) = includesChar c a || includesChar c b.
Proof.
  induction a as [|c' a IH];
    rewrite ?append_empty, ?append_String; cbn [includesChar];
    [reflexivity|].
  rewrite IH. apply orb_assoc.
Qed.

Lemma plainText_spec s :
  plainText s = true ->
  includesChar equalsSign s = false /\ includesChar lineFeed s = false.
Proof.
  unfold plainText. rewrite andb_true_iff, !negb_true_iff. tauto.
Qed.

(** A printed entry is read back as the assignment [info[key] = value]. *)
Lemma recordLine_entry info key value :
  plainText key = true -> plainText value = true -> key <> "__proto__" ->
  recordLine info (key +:+ String equalsSign value) = <[key := value]> info.
Proof.
  intros Hk Hv Hproto.
  apply plainText_spec in Hk, Hv. destruct Hk as [Hk _], Hv as [Hv _].
  unfold recordLine.
  rewrite includesChar_app. cbn [includesChar].
  rewrite Ascii.eqb_refl, orb_true_r.
  rewrite (splitOn_app _ _ _ Hk), (splitOn_plain _ _ Hv).
  destruct (decide (key = "__proto__")); [contradiction|reflexivity].
Qed.

Lemma entry_line_plain key value :
  plainText key = true -> plainText value = true ->
  includesChar lineFeed (key +:+ String equalsSign value) = false.
Proof.
  intros Hk Hv.
  apply plainText_spec in Hk, Hv. destruct Hk as [_ Hk], Hv as [_ Hv].
  rewrite includesChar_app. cbn [includesChar]. rewrite Hk, Hv. reflexivity.
Qed.

Lemma parse_printed entries : forall info,
  plainEntries entries ->
  foldl recordLine info (splitOn lineFeed (printEntries entries))
  = foldl (fun m kv => <[kv.1 := kv.2]> m) info entries.
Proof.
  induction entries as [|[k v] entries IH]; intros info Hplain.
  - reflexivity.
  - apply List.Forall_cons_iff in Hplain.
    destruct Hplain as [(Hk & Hv & Hproto) Hplain]. cbn in Hk, Hv, Hproto.
    cbn [printEntries].
    replace (k +:+ String equalsSign v +:+ String lineFeed (printEntries entries))
      with ((k +:+ String equalsSign v)
            +:+ String lineFeed (printEntries entries)).
    + rewrite (splitOn_app _ _ _ (entry_line_plain k v Hk Hv)).
      cbn [foldl]. rewrite (recordLine_entry info k v Hk Hv Hproto).
      apply IH, Hplain.
    + clear. induction k as [|c k IHk];
        rewrite ?append_empty, ?append_String; [reflexivity|].
      f_equal. exact IHk.
Qed.

Lemma foldl_insert_reverse (entries : list (string * string)) :
  foldl (fun (m : gmap string string) kv => <[kv.1 := kv.2]> m) ∅ entries
  = list_to_map (reverse entries).
Proof.
  induction entries as [|kv entries IH] using rev_ind; [reflexivity|].
  rewrite foldl_app, reverse_app. cbn [foldl reverse rev_append app].
  rewrite IH. destruct kv as [k v]. reflexivity.
Qed.

End ParseFacts.

(** X20. Reading back what ffprobe prints: for entries whose keys and
    values contain neither "=" nor a line feed (and no key "__proto__"),
    printed one [key=value] line each, getVideoInfo builds the object that
    maps every key to its value in the last line that has this key, and has
    no other property. *)
Theorem X20_getVideoInfo_reads_entries (entries : list (string * string)) :
  plainEntries entries ->
  parseVideoInfo (printEntries entries) = list_to_map (reverse entries).
Proof.
  intros Hplain. unfold parseVideoInfo.
  rewrite (parse_printed entries ∅ Hplain). apply foldl_insert_reverse.
Qed.

Lemma X20_getVideoInfo_reads_entries_witness :
  parseVideoInfo
    (printEntries [("width", "1920"); ("height", "1080");
                   ("r_frame_rate", "30/1")])
  = list_to_map (reverse [("width", "1920"); ("height", "1080");
                          ("r_frame_rate", "30/1")]).
Proof.
  apply (X20_getVideoInfo_reads_entries
           [("width", "1920"); ("height", "1080"); ("r_frame_rate", "30/1")]).
  repeat constructor; cbn; discriminate.
Defined.

(** ** [splitByScenes] and [mergeScenes]: names and errors *)

Section NamingFacts.

Context (path : NodePath) (E : Engine).


Lemma splitLoop_names videoPath outputDir baseName bounds :
  forall i fs outputs fs',
  splitLoop path E videoPath outputDir baseName i bounds fs
    = (Returned outputs, fs') ->
  outputs = List.map (clipName path outputDir baseName)
                     (seq i (length (sceneSegments bounds))).
Proof.
  induction bounds as [|a bounds IH]; intros i fs outputs fs' H.
  - apply Returned_inv in H. destruct H as [<- _]. reflexivity.
  - destruct bounds as [|b bounds].
    + apply Returned_inv in H. destruct H as [<- _]. reflexivity.
    + cbn [splitLoop] in H.
      apply bind_Returned in H. destruct H as (u & fs1 & _ & H).
      apply bind_Returned in H. destruct H as (rest & fs2 & Hrest & H).
      apply Returned_inv in H. destruct H as [<- _].
      rewrite sceneSegments_step. cbn [length seq List.map].
      f_equal. exact (IH _ _ _ _ Hrest).
Qed.



End NamingFacts.

Section StringFacts.

Lemma length_append (a b : string) :
  String.length (a +:+ b) = (String.length a + String.length b)%nat.
Proof.
  induction a as [|c a IH]; rewrite ?append_empty, ?append_String;
    [reflexivity|].
  cbn [String.length]. rewrite IH. reflexivity.
Qed.

Lemma append_cancel_r (a b t : string) : a +:+ t = b +:+ t -> a = b.
Proof.
  revert b. induction a as [|c a IH]; intros b H.
  - destruct b as [|c' b]; [reflexivity|]. exfalso.
    apply (f_equal String.length) in H.
    rewrite append_empty, length_append in H. cbn in H. lia.
  - destruct b as [|c' b].
    + exfalso. apply (f_equal String.length) in H.
      rewrite append_empty, length_append in H. cbn in H. lia.
    + rewrite !append_String in H. injection H as -> H.
      f_equal. apply IH, H.
Qed.

End StringFacts.



(** X22. When splitByScenes returns, it returns one clip name per segment
    of [[0, ...timestamps, duration]], in order, and clip [i] (counted from
    0) is [path.join(outputDir, `${baseName}_scene_${n}.mp4`)] where [n] is
    [i + 1] written with at least three digits. *)
Theorem X22_clip_names
    (path : NodePath) (E : Engine) (videoPath : string)
    (timestamps : list Q) (outputDir : string)
    (fs : gset string) (clips : list string) (fs' : gset string) :
  splitByScenes path E videoPath timestamps outputDir fs
    = (Returned clips, fs') ->
  clips = List.map (clipName path outputDir (path_parse_name path videoPath))
                   (seq 0 (S (length timestamps))).
Proof.
  unfold splitByScenes. intros H.
  apply bind_Returned in H. destruct H as (found & fs1 & _ & H).
  apply bind_Returned in H. destruct H as (u & fs2 & _ & H).
  apply bind_Returned in H. destruct H as (duration & fs3 & _ & H).
  apply splitLoop_names in H. rewrite H. do 2 f_equal.
  unfold allTimestamps. rewrite sceneSegments_length, length_app.
  cbn. lia.
Qed.

Lemma X22_clip_names_witness :
  match splitByScenes posixPath
          (scriptedEngine 35.05 [15.2; 30.0] nothingFails)
          "myvideo" [15.2; 30.0] "scenes" ∅ with
  | (Returned clips, _) =>
      clips = [ "scenes/myvideo_scene_001.mp4";
                "scenes/myvideo_scene_002.mp4";
                "scenes/myvideo_scene_003.mp4" ]
  | (Thrown _, _) => False
  end.
Proof.
  destruct (splitByScenes _ _ _ _ _ _) as [[clips|e] fs'] eqn:H.
  - rewrite (X22_clip_names _ _ _ _ _ _ _ _ H). reflexivity.
  - vm_compute in H. discriminate.
Defined.

(** X23. Within a run no temporary file name is used twice: different
    segment indices give different names, in mergeScenes
    ([temp_scene_i.mp4]) and in removeSilence ([temp_audio_i.mp4]). *)
Theorem X23_temporary_names_distinct (i j : nat) :
  i <> j ->
  tempFileName i <> tempFileName j /\ tempAudioName i <> tempAudioName j.
Proof.
  intros Hij. split; intros H; apply Hij.
  - unfold tempFileName in H. apply String.app_inj in H.
    apply append_cancel_r in H. apply pretty_nat_inj in H. exact H.
  - unfold tempAudioName in H. apply String.app_inj in H.
    apply append_cancel_r in H. apply pretty_nat_inj in H. exact H.
Qed.

Lemma X23_temporary_names_distinct_witness :
  tempFileName 0 <> tempFileName 1 /\ tempAudioName 0 <> tempAudioName 1.
Proof. apply (X23_temporary_names_distinct 0 1). lia. Defined.
